(** * Matilda: time control and engine maintenance

    A shallow embedding of [src/time_ctrl.c] (Canadian byo-yomi clock, budget
    computation, textual time-system format) and of the engine glue
    ([evaluate_position], [new_match_maintenance], [opt_turn_maintenance]).

    Conventions.
    - A [u32] is a [Z] in [0, 2^32); subtraction and decrement wrap around.
    - A [double] of [calc_time_to_play] is an IEEE 754 binary64 value
      ([spec_float]), rounded as the hardware rounds it.
    - C strings are [string]s without embedded NUL. *)

From Stdlib Require Import ZArith NArith QArith Bool List Lia String Ascii.
From Stdlib Require Import DecimalString DecimalN DecimalPos DecimalFacts.
From Stdlib Require Import Floats.SpecFloat.
Import ListNotations.

#[local] Open Scope Z_scope.

(** ** Machine integers *)

Module U32.

Definition modulus : Z := 4294967296.
Definition max : Z := 4294967295.

Definition in_range (x : Z) : Prop := 0 <= x < modulus.

Definition wrap (x : Z) : Z := x mod modulus.

(** [a - b] on [u32]. *)
Definition sub (a b : Z) : Z := wrap (a - b).

(** [a--] on [u32]. *)
Definition dec (a : Z) : Z := wrap (a - 1).

End U32.

Module S32.

Definition min : Z := -2147483648.
Definition max : Z := 2147483647.

Definition in_range (x : Z) : Prop := min <= x <= max.

(** The [s32] a value is read as. *)
Definition wrap (x : Z) : Z := (x - min) mod U32.modulus + min.

End S32.

(** ** The time system ([time_ctrl.h], [time_ctrl.c]) *)

Record time_system : Type := mk_time_system {
  can_timeout : bool;
  timed_out : bool;
  main_time : Z;
  main_time_remaining : Z;
  byo_yomi_time : Z;
  byo_yomi_time_remaining : Z;
  byo_yomi_stones : Z;
  byo_yomi_stones_remaining : Z;
  byo_yomi_periods : Z;
  byo_yomi_periods_remaining : Z
}.

Definition set_timed_out (ts : time_system) (v : bool) : time_system :=
  mk_time_system (can_timeout ts) v (main_time ts) (main_time_remaining ts)
    (byo_yomi_time ts) (byo_yomi_time_remaining ts)
    (byo_yomi_stones ts) (byo_yomi_stones_remaining ts)
    (byo_yomi_periods ts) (byo_yomi_periods_remaining ts).

Definition set_main_time_remaining (ts : time_system) (v : Z) : time_system :=
  mk_time_system (can_timeout ts) (timed_out ts) (main_time ts) v
    (byo_yomi_time ts) (byo_yomi_time_remaining ts)
    (byo_yomi_stones ts) (byo_yomi_stones_remaining ts)
    (byo_yomi_periods ts) (byo_yomi_periods_remaining ts).

Definition set_byo_yomi_time_remaining (ts : time_system) (v : Z)
  : time_system :=
  mk_time_system (can_timeout ts) (timed_out ts) (main_time ts)
    (main_time_remaining ts)
    (byo_yomi_time ts) v
    (byo_yomi_stones ts) (byo_yomi_stones_remaining ts)
    (byo_yomi_periods ts) (byo_yomi_periods_remaining ts).

Definition set_byo_yomi_stones_remaining (ts : time_system) (v : Z)
  : time_system :=
  mk_time_system (can_timeout ts) (timed_out ts) (main_time ts)
    (main_time_remaining ts)
    (byo_yomi_time ts) (byo_yomi_time_remaining ts)
    (byo_yomi_stones ts) v
    (byo_yomi_periods ts) (byo_yomi_periods_remaining ts).

Definition set_byo_yomi_periods_remaining (ts : time_system) (v : Z)
  : time_system :=
  mk_time_system (can_timeout ts) (timed_out ts) (main_time ts)
    (main_time_remaining ts)
    (byo_yomi_time ts) (byo_yomi_time_remaining ts)
    (byo_yomi_stones ts) (byo_yomi_stones_remaining ts)
    (byo_yomi_periods ts) v.

(** [set_time_system]: the complete Canadian byo-yomi preset.  It overwrites
    every field, so the model needs no previous value. *)
Definition set_time_system
  (main_time byo_yomi_time byo_yomi_stones byo_yomi_periods : Z)
  : time_system :=
  mk_time_system true false
    main_time main_time
    byo_yomi_time byo_yomi_time
    byo_yomi_stones byo_yomi_stones
    byo_yomi_periods byo_yomi_periods.

(** [set_sudden_death]: absolute time only. *)
Definition set_sudden_death (main_time : Z) : time_system :=
  mk_time_system true false main_time main_time 0 0 0 0 0 0.

(** [set_time_per_turn]: constant time per turn; this clock cannot time out. *)
Definition set_time_per_turn (time_per_turn : Z) : time_system :=
  mk_time_system false false 0 0 time_per_turn time_per_turn 1 1 1 1.

(** [reset_clock]. *)
Definition reset_clock (ts : time_system) : time_system :=
  mk_time_system (can_timeout ts) false
    (main_time ts) (main_time ts)
    (byo_yomi_time ts) (byo_yomi_time ts)
    (byo_yomi_stones ts) (byo_yomi_stones ts)
    (byo_yomi_periods ts) (byo_yomi_periods ts).

(** *** [advance_clock] *)

(** What one pass through the body of the [while] loop does: either the
    function returns (the [return] after [timed_out = true]) or control goes
    back to the loop test with new values of [*ts], [milliseconds] and
    [consumed_byo_yomi_stone]. *)
Inductive iteration : Type :=
| Return (ts : time_system)
| Continue (ts : time_system) (milliseconds : Z)
           (consumed_byo_yomi_stone : bool).

(** New period, or move quota met early: both budgets are refilled. *)
Definition replenish (ts : time_system) : time_system :=
  set_byo_yomi_time_remaining
    (set_byo_yomi_stones_remaining ts (byo_yomi_stones ts))
    (byo_yomi_time ts).

Definition loop_body (ts : time_system) (milliseconds : Z)
  (consumed_byo_yomi_stone : bool) : iteration :=
  if main_time_remaining ts =? 0 then
    (* Byo-yomi period *)
    let byo_time_elapsed :=
      Z.min (byo_yomi_time_remaining ts) milliseconds in
    let ts1 := set_byo_yomi_time_remaining ts
                 (U32.sub (byo_yomi_time_remaining ts) byo_time_elapsed) in
    let milliseconds1 := U32.sub milliseconds byo_time_elapsed in
    let ts2 :=
      if consumed_byo_yomi_stone then ts1
      else set_byo_yomi_stones_remaining ts1
             (U32.dec (byo_yomi_stones_remaining ts1)) in
    if byo_yomi_time_remaining ts2 =? 0 then
      (* The period time has run out, consume a period. *)
      let ts3 := set_byo_yomi_periods_remaining ts2
                   (U32.dec (byo_yomi_periods_remaining ts2)) in
      if byo_yomi_periods_remaining ts3 =? 0 then
        Return (set_timed_out ts3 true)
      else
        Continue (replenish ts3) milliseconds1 true
    else if byo_yomi_stones_remaining ts2 =? 0 then
      Continue (replenish ts2) milliseconds1 true
    else
      Continue ts2 milliseconds1 true
  else
    (* Absolute period *)
    let main_time_elapsed := Z.min (main_time_remaining ts) milliseconds in
    Continue
      (set_main_time_remaining ts
         (U32.sub (main_time_remaining ts) main_time_elapsed))
      (U32.sub milliseconds main_time_elapsed)
      consumed_byo_yomi_stone.

(** The [while(milliseconds > 0)] loop.  [fuel] bounds the number of
    iterations; [None] means the bound was reached. *)
Fixpoint advance_loop (fuel : nat) (ts : time_system) (milliseconds : Z)
  (consumed_byo_yomi_stone : bool) : option time_system :=
  if 0 <? milliseconds then
    match fuel with
    | O => None
    | S fuel' =>
        match loop_body ts milliseconds consumed_byo_yomi_stone with
        | Return ts' => Some ts'
        | Continue ts' milliseconds' consumed' =>
            advance_loop fuel' ts' milliseconds' consumed'
        end
    end
  else Some ts.

Definition advance_clock (fuel : nat) (ts : time_system) (milliseconds : Z)
  : option time_system :=
  if negb (can_timeout ts) || timed_out ts then Some ts
  else advance_loop fuel ts milliseconds false.

(** [advance_clock] called on [ts] with [milliseconds] returns, leaving
    [ts']. *)
Definition advances_to (ts : time_system) (milliseconds : Z)
  (ts' : time_system) : Prop :=
  exists fuel, advance_clock fuel ts milliseconds = Some ts'.

(** A sequence of calls, with the clock after each one. *)
Inductive run : time_system -> list Z -> list time_system -> Prop :=
| run_nil ts : run ts [] []
| run_cons ts ms ts' rest after :
    advances_to ts ms ts' ->
    run ts' rest after ->
    run ts (ms :: rest) (ts' :: after).

(** Every field holds a [u32]. *)
Record well_formed (ts : time_system) : Prop := mk_well_formed {
  wf_main_time : U32.in_range (main_time ts);
  wf_main_time_remaining : U32.in_range (main_time_remaining ts);
  wf_byo_yomi_time : U32.in_range (byo_yomi_time ts);
  wf_byo_yomi_time_remaining : U32.in_range (byo_yomi_time_remaining ts);
  wf_byo_yomi_stones : U32.in_range (byo_yomi_stones ts);
  wf_byo_yomi_stones_remaining : U32.in_range (byo_yomi_stones_remaining ts);
  wf_byo_yomi_periods : U32.in_range (byo_yomi_periods ts);
  wf_byo_yomi_periods_remaining : U32.in_range (byo_yomi_periods_remaining ts)
}.

(** Every remaining budget lies between zero and its configured value. *)
Definition within_bounds (ts : time_system) : Prop :=
  0 <= main_time_remaining ts <= main_time ts /\
  0 <= byo_yomi_time_remaining ts <= byo_yomi_time ts /\
  0 <= byo_yomi_stones_remaining ts <= byo_yomi_stones ts /\
  0 <= byo_yomi_periods_remaining ts <= byo_yomi_periods ts.

(** The clocks the three presets build from [u32] arguments. *)
Inductive preset : time_system -> Prop :=
| preset_byo_yomi m t s p :
    U32.in_range m -> U32.in_range t -> U32.in_range s -> U32.in_range p ->
    preset (set_time_system m t s p)
| preset_sudden_death m :
    U32.in_range m -> preset (set_sudden_death m)
| preset_per_turn t :
    U32.in_range t -> preset (set_time_per_turn t).

(** The presets with the byo-yomi preset restricted to at least one stone and
    at least one period. *)
Inductive proper_preset : time_system -> Prop :=
| proper_byo_yomi m t s p :
    U32.in_range m -> U32.in_range t -> U32.in_range s -> U32.in_range p ->
    1 <= s -> 1 <= p ->
    proper_preset (set_time_system m t s p)
| proper_sudden_death m :
    U32.in_range m -> proper_preset (set_sudden_death m)
| proper_per_turn t :
    U32.in_range t -> proper_preset (set_time_per_turn t).

(** *** Invariants of the clock *)

(** A byo-yomi clock between two calls: it can time out, has at least one
    stone and one period configured, its budgets are within bounds and, as
    long as it has not timed out, a stone and a period are left. *)
Definition byo_steady (ts : time_system) : Prop :=
  can_timeout ts = true /\
  1 <= byo_yomi_stones ts /\ 1 <= byo_yomi_periods ts /\
  within_bounds ts /\
  (timed_out ts = false ->
   1 <= byo_yomi_stones_remaining ts /\ 1 <= byo_yomi_periods_remaining ts).

(** A sudden-death clock between two calls. *)
Definition sudden_steady (ts : time_system) : Prop :=
  byo_yomi_time ts = 0 /\ byo_yomi_stones ts = 0 /\ byo_yomi_periods ts = 0 /\
  byo_yomi_time_remaining ts = 0 /\ byo_yomi_stones_remaining ts = 0 /\
  byo_yomi_periods_remaining ts = 0 /\
  0 <= main_time_remaining ts <= main_time ts.

(** A clock that cannot time out. *)
Definition idle (ts : time_system) : Prop :=
  can_timeout ts = false /\ within_bounds ts.

Definition steady (ts : time_system) : Prop :=
  well_formed ts /\ (byo_steady ts \/ sudden_steady ts \/ idle ts).

(** A sudden-death clock at the loop test.  Once the main time is used up
    the first pass wraps [byo_yomi_periods_remaining] around and the loop
    counts it down to zero with [milliseconds] unchanged. *)
Definition sudden_loop (ts : time_system) (ms : Z) (c : bool) : Prop :=
  byo_yomi_time ts = 0 /\ byo_yomi_stones ts = 0 /\ byo_yomi_periods ts = 0 /\
  byo_yomi_time_remaining ts = 0 /\ byo_yomi_stones_remaining ts = 0 /\
  0 <= main_time_remaining ts <= main_time ts /\
  (c = false -> byo_yomi_periods_remaining ts = 0) /\
  (c = true -> 0 < ms /\ main_time_remaining ts = 0).

(** Each iteration either consumes some of [milliseconds] or, with the period
    time at zero, moves [byo_yomi_periods_remaining] one step down towards
    zero (wrapping around from zero). *)
Definition loop_measure (ts : time_system) (ms : Z) : Z :=
  ms * U32.modulus + U32.dec (byo_yomi_periods_remaining ts).

(** The clock after a period rollover that leaves periods to play. *)
Definition rolled_over (ts : time_system) : time_system :=
  mk_time_system (can_timeout ts) (timed_out ts)
    (main_time ts) (main_time_remaining ts)
    (byo_yomi_time ts) (byo_yomi_time ts)
    (byo_yomi_stones ts) (byo_yomi_stones ts)
    (byo_yomi_periods ts) (U32.dec (byo_yomi_periods_remaining ts)).

(** *** [calc_time_to_play] *)

(** A C [double] is an IEEE 754 binary64 value, and [*], [/] and [-] round
    to nearest, ties to even, as the SSE2 code of an x86-64 build does.
    [spec_float] is the specification of these values and operations that
    the standard library gives for its own floats. *)
Module Double.

Definition prec : Z := 53.
Definition emax : Z := 1024.

Definition double : Type := spec_float.

Definition zero : double := S754_zero false.

(** Conversion of an integer to [double]. *)
Definition of_Z (z : Z) : double := binary_normalize prec emax z 0 false.

Definition mul : double -> double -> double := SFmul prec emax.
Definition div : double -> double -> double := SFdiv prec emax.
Definition sub : double -> double -> double := SFsub prec emax.

(** [a > b], [a < b] and [a == b]; each is false when an operand is a
    NaN. *)
Definition gt (a b : double) : bool := SFltb b a.
Definition lt (a b : double) : bool := SFltb a b.
Definition eq (a b : double) : bool := SFeqb a b.

(** The mantissa has at most 53 bits and the exponent is in range, as for
    every value an operation yields. *)
Definition valid (x : double) : bool := valid_binary prec emax x.

(** The integer part of a finite value. *)
Definition truncate (x : double) : option Z :=
  match x with
  | S754_zero _ => Some 0
  | S754_finite s m e =>
      let n := match e with
               | Z.neg p => Z.shiftr (Z.pos m) (Z.pos p)
               | _ => Z.shiftl (Z.pos m) e
               end in
      Some (if s then - n else n)
  | S754_infinity _ | S754_nan => None
  end.

(** Conversion to [u32], as in [return t_t].  C defines it only when the
    integer part fits a [u32]; an x86-64 build converts to a 64-bit integer
    and keeps the low 32 bits, and a value that does not fit 64 bits, or a
    NaN, gives [0x8000000000000000], of which the low 32 bits are zero. *)
Definition to_u32 (x : double) : Z :=
  match truncate x with
  | Some n => if Z.abs n <? 2 ^ 63 then U32.wrap n else 0
  | None => 0
  end.

(** The sign bit is clear (a NaN has none). *)
Definition sign_clear (x : double) : Prop :=
  match x with
  | S754_zero s | S754_infinity s | S754_finite s _ _ => s = false
  | S754_nan => True
  end.

(** [!(x < 0)] and [x > 0]. *)
Definition not_negative (x : double) : bool := negb (lt x zero).
Definition positive (x : double) : bool := gt x zero.

End Double.

(** The [MAX] macro, of a header that is not part of the sources at hand:
    [((a) > (b)) ? (a) : (b)]. *)
Definition MAX (a b : Double.double) : Double.double :=
  if Double.gt a b then a else b.

(** The two globals of [time_ctrl.c]. *)
Record latency : Type := mk_latency {
  network_roundtrip_delay : Z;
  network_round_trip_set : bool
}.

Section CalcTime.

(** Compile-time constants of [config.h], which is not part of the sources at
    hand. *)
Variable BOARD_SIZ : Z.
Variable TIME_ALLOT_FACTOR : Double.double.
Variable LATENCY_COMPENSATION : Z.
Variable DETECT_NETWORK_LATENCY : bool.

(** Initial value of the globals. *)
Definition latency_init : latency := mk_latency LATENCY_COMPENSATION false.

(** The value of [t_t] after the non-linear factor, before the network lag
    correction.  [BOARD_SIZ * BOARD_SIZ] is an integer product; the integers
    become doubles where C converts them. *)
Definition time_before_lag (ts : time_system) (turns_played : Z)
  : Double.double :=
  let e1 :=
    Double.sub
      (Double.div
         (Double.mul (Double.of_Z (BOARD_SIZ * BOARD_SIZ)) (Double.of_Z 2))
         (Double.of_Z 3))
      (Double.of_Z turns_played) in
  let e2 := Double.div (Double.of_Z BOARD_SIZ) (Double.of_Z 4) in
  let turns_left := MAX e1 e2 in
  let mtt := Double.div (Double.of_Z (main_time_remaining ts)) turns_left in
  let t_t :=
    if 0 <? byo_yomi_stones_remaining ts then
      let byt := Double.div (Double.of_Z (byo_yomi_time_remaining ts))
                   (Double.of_Z (byo_yomi_stones_remaining ts)) in
      MAX byt mtt
    else mtt in
  Double.mul t_t TIME_ALLOT_FACTOR.

(** The network lag correction, in either build. *)
Definition lag_correction (g : latency) (t_t : Double.double)
  : Double.double :=
  if DETECT_NETWORK_LATENCY then
    if network_round_trip_set g
       && Double.gt t_t (Double.of_Z (network_roundtrip_delay g))
    then Double.sub t_t (Double.of_Z (network_roundtrip_delay g))
    else t_t
  else
    if Double.gt t_t (Double.of_Z LATENCY_COMPENSATION)
    then Double.sub t_t (Double.of_Z LATENCY_COMPENSATION)
    else t_t.

(** The latency value the build at hand compares against. *)
Definition compensation (g : latency) : Z :=
  if DETECT_NETWORK_LATENCY then network_roundtrip_delay g
  else LATENCY_COMPENSATION.

Definition calc_time_to_play (g : latency) (ts : time_system)
  (turns_played : Z) : Z :=
  Double.to_u32 (lag_correction g (time_before_lag ts turns_played)).

End CalcTime.

(** Whether the build at hand lets the correction take place at all. *)
Definition lag_gate (DETECT_NETWORK_LATENCY : bool) (g : latency) : bool :=
  if DETECT_NETWORK_LATENCY then network_round_trip_set g else true.

(** ** Textual time systems *)

#[local] Open Scope string_scope.

(** [printf("%u", n)]. *)
Definition u32_to_str (n : Z) : string :=
  NilEmpty.string_of_uint (N.to_uint (Z.to_N n)).

(** The unit selection of [time_system_to_str]; the source spells it out
    twice, once for the main time and once for the byo-yomi time. *)
Definition largest_unit (t : Z) : Z * string :=
  let a := if (t =? 0)%Z then "" else "ms" in
  if (1000 <=? t)%Z && (t mod 1000 =? 0)%Z then
    let a := "s" in
    let t := (t / 1000)%Z in
    let '(t, a) :=
      if (60 <=? t)%Z && (t mod 60 =? 0)%Z then ((t / 60)%Z, "m")
      else (t, a) in
    let '(t, a) :=
      if (60 <=? t)%Z && (t mod 60 =? 0)%Z then ((t / 60)%Z, "h")
      else (t, a) in
    (t, a)
  else (t, a).

(** [snprintf(buf, 64, ...)] keeps at most 63 characters. *)
Definition snprintf64 (s : string) : string := substring 0 63 s.

(** The text [time_system_to_str] hands to [snprintf]. *)
Definition time_system_text (ts : time_system) : string :=
  let '(abs_time, a) := largest_unit (main_time ts) in
  let '(byo_time, b) := largest_unit (byo_yomi_time ts) in
  u32_to_str abs_time ++ a ++ "+" ++ u32_to_str (byo_yomi_periods ts) ++ "x"
    ++ u32_to_str byo_time ++ b ++ "/" ++ u32_to_str (byo_yomi_stones ts).

Definition time_system_to_str (ts : time_system) : string :=
  snprintf64 (time_system_text ts).

(** [char_idx = index(s, c); char_idx[0] = 0; rest = char_idx + 1]: the text
    before the first [c] and the text after it, or [None] when [index]
    returns [NULL]. *)
Fixpoint index_cut (s : string) (c : ascii) : option (string * string) :=
  match s with
  | EmptyString => None
  | String a s' =>
      if Ascii.eqb a c then Some (EmptyString, s')
      else match index_cut s' c with
           | Some (before, rest) => Some (String a before, rest)
           | None => None
           end
  end.

(** The four assignments at the end of [str_to_time_system]. *)
Definition store_configuration (dst : time_system)
  (absolute_milliseconds byoyomi_stones byoyomi_milliseconds
     byoyomi_periods : Z) : time_system :=
  mk_time_system (can_timeout dst) (timed_out dst)
    absolute_milliseconds (main_time_remaining dst)
    byoyomi_milliseconds (byo_yomi_time_remaining dst)
    byoyomi_stones (byo_yomi_stones_remaining dst)
    byoyomi_periods (byo_yomi_periods_remaining dst).

Section StrToTimeSystem.

(** The helpers of [stringm.c], which is not part of the sources at hand.
    Their integer results are of type [s32]; the model reads them through
    [S32.wrap], which leaves an [s32] as it is. *)
Variable trim : string -> string.
Variable str_to_milliseconds : string -> Z.
Variable parse_int : string -> option Z.

(** [str_to_time_system].  [src] is [None] for a [NULL] pointer and
    [malloc_ok] tells whether [malloc] succeeds.  The result pairs the
    returned [bool] with the contents of [*dst] on return. *)
Definition str_to_time_system (malloc_ok : bool) (src : option string)
  (dst : time_system) : bool * time_system :=
  match src with
  | None => (false, dst)
  | Some src =>
    if (String.length src <? 9)%nat then (false, dst)
    else if negb malloc_ok then (false, dst)
    else
      let s := trim src in
      if (String.length s <? 9)%nat then (false, dst)
      else
        (* time + ... *)
        match index_cut s "+" with
        | None => (false, dst)
        | Some (s, rest) =>
          let t := S32.wrap (str_to_milliseconds s) in
          if (t <? 0)%Z then (false, dst)
          else
            let absolute_milliseconds := t in
            (* ... + number x ... *)
            match index_cut rest "x" with
            | None => (false, dst)
            | Some (s, rest) =>
              match option_map S32.wrap (parse_int s) with
              | None => (false, dst)
              | Some t =>
                if (t <? 0)%Z then (false, dst)
                else
                  let byoyomi_periods := t in
                  (* ... x time / ... *)
                  match index_cut rest "/" with
                  | None => (false, dst)
                  | Some (s, rest) =>
                    let t := S32.wrap (str_to_milliseconds s) in
                    if (t <? 0)%Z then (false, dst)
                    else
                      let byoyomi_milliseconds := t in
                      (* ... / number *)
                      match option_map S32.wrap (parse_int rest) with
                      | None => (false, dst)
                      | Some t =>
                        if (t <? 1)%Z then (false, dst)
                        else
                          let byoyomi_stones := t in
                          (true,
                           store_configuration dst absolute_milliseconds
                             byoyomi_stones byoyomi_milliseconds
                             byoyomi_periods)
                      end
                  end
              end
            end
        end
  end.

End StrToTimeSystem.

(** *** The helpers of [stringm.c] *)

Module Stringm.

Definition is_digit (c : ascii) : bool :=
  let n := nat_of_ascii c in ((48 <=? n) && (n <=? 57))%nat.

Definition is_space (c : ascii) : bool :=
  let n := nat_of_ascii c in
  ((n =? 32) || ((9 <=? n) && (n <=? 13)))%nat.

Definition fits_s32 (x : Z) : bool :=
  ((-2147483648 <=? x) && (x <=? 2147483647))%Z.

(** The value of a non-empty run of decimal digits. *)
Definition magnitude (s : string) : option Z :=
  match s with
  | EmptyString => None
  | _ =>
      match NilEmpty.uint_of_string s with
      | Some d => Some (Z.of_N (N.of_uint d))
      | None => None
      end
  end.

(** The leading decimal digits of [s] and what follows them. *)
Fixpoint span_digits (s : string) : string * string :=
  match s with
  | EmptyString => (EmptyString, EmptyString)
  | String c s' =>
      if is_digit c then
        let '(d, r) := span_digits s' in (String c d, r)
      else (EmptyString, s)
  end.

(** Milliseconds per unit suffix; [ms] is the default and may be left out. *)
Definition unit_factor (u : string) : option Z :=
  if String.eqb u "" then Some 1
  else if String.eqb u "ms" then Some 1
  else if String.eqb u "s" then Some 1000
  else if String.eqb u "m" then Some 60000
  else if String.eqb u "h" then Some 3600000
  else None.

(** Modelled from the spec: [parse_int] of [stringm.c] is missing.  The spec
    has the counts of a time system written as integers and the caller tests
    the sign of the result, so the model reads an optionally negated run of
    decimal digits that fits the signed 32-bit result and fails on anything
    else. *)
Definition parse_int (s : string) : option Z :=
  let v :=
    match s with
    | String "-" s' => option_map Z.opp (magnitude s')
    | _ => magnitude s
    end in
  match v with
  | Some x => if fits_s32 x then Some x else None
  | None => None
  end.

(** Modelled from the spec: [str_to_milliseconds] of [stringm.c] is missing.
    The spec has a duration be an integer magnitude optionally suffixed by one
    of [ms] (default, omissible), [s], [m], [h]; the caller takes a negative
    result for a malformed literal.  A duration that does not fit the signed
    32-bit result counts as malformed. *)
Definition str_to_milliseconds (s : string) : Z :=
  let '(d, u) := span_digits s in
  match magnitude d, unit_factor u with
  | Some n, Some f => if fits_s32 (n * f) then (n * f)%Z else (-1)%Z
  | _, _ => (-1)%Z
  end.

Fixpoint ltrim (s : string) : string :=
  match s with
  | EmptyString => EmptyString
  | String c s' => if is_space c then ltrim s' else s
  end.

Fixpoint rtrim (s : string) : string :=
  match s with
  | EmptyString => EmptyString
  | String c s' =>
      match rtrim s' with
      | EmptyString => if is_space c then EmptyString else String c EmptyString
      | r => String c r
      end
  end.

(** Modelled from the spec: [trim] of [stringm.c] is missing and the spec does
    not describe it beyond the grammar having no blanks; the model removes the
    white space at both ends. *)
Definition trim (s : string) : string := rtrim (ltrim s).

End Stringm.

(** [str_to_time_system] with the helpers above, on a non-[NULL] string and
    with [malloc] succeeding. *)
Definition parse_time_system (src : string) (dst : time_system)
  : bool * time_system :=
  str_to_time_system Stringm.trim Stringm.str_to_milliseconds
    Stringm.parse_int true (Some src) dst.

(** A canonical string is one [time_system_to_str] writes. *)
Definition canonical (s : string) : Prop :=
  exists ts, well_formed ts /\ s = time_system_to_str ts.

(** Every character of [s] satisfies [p]. *)
Fixpoint all_chars (p : ascii -> bool) (s : string) : bool :=
  match s with
  | EmptyString => true
  | String c s' => p c && all_chars p s'
  end.

Definition starts_without_digit (s : string) : Prop :=
  match s with
  | EmptyString => True
  | String c _ => Stringm.is_digit c = false
  end.

(** The characters of a time system text besides the three separators:
    digits and unit letters. *)
Definition is_unit_letter (c : ascii) : bool :=
  (Ascii.eqb c "m" || Ascii.eqb c "s" || Ascii.eqb c "h")%char.

Definition plain (c : ascii) : bool := Stringm.is_digit c || is_unit_letter c.

#[local] Close Scope string_scope.

(** ** The engine glue ([evaluate_position] and the maintenance calls) *)

Module Engine.

(** What the maintenance functions write to [stderr] and to the log. *)
Inductive record : Type :=
| freed_all_states
| freed_states (freed : Z) (mib : Z).

Section Engine.

(** The collaborators: boards, the opening book, the search and the
    transpositions table are declared in headers only. *)
Variables board out_board transpositions : Type.

(** [reduce_auto(&tmp, is_black)]: the reduced board and the reduction. *)
Variable reduce_auto : board -> bool -> board * Z.
(** [opening_book(&tmp, out_b)]: the new [*out_b] on a hit. *)
Variable opening_book : board -> option out_board.
Variable oboard_revert_reduce : out_board -> Z -> out_board.
(** [mcts_start]: the table after the search, the new [*out_b] and the
    win rate. *)
Variable mcts_start :
  transpositions -> board -> bool -> Z -> Z -> transpositions * out_board * Q.
(** [tt_clean_outside_tree]: the table left and the number of states freed. *)
Variable tt_clean_outside_tree :
  transpositions -> board -> bool -> transpositions * Z.
Variable tt_clean_all : transpositions -> transpositions.
Variable transpositions_table_init : transpositions -> transpositions.
Variable UCT_MIN_WINRATE : Q.
Variable sizeof_tt_stats : Z.

(** The globals the functions read and write, the table and the output. *)
Record engine : Type := mk_engine {
  use_opening_book : bool;
  tt_requires_maintenance : bool;
  komi_offset : Z;
  table : transpositions;
  output : list record
}.

(** The initializers of the globals. *)
Definition initial (komi : Z) (t : transpositions) : engine :=
  mk_engine true false komi t [].

Definition set_use_of_opening_book (use_ob : bool) (e : engine) : engine :=
  mk_engine use_ob (tt_requires_maintenance e) (komi_offset e) (table e)
    (output e).

(** [evaluate_position]: the globals, [*out_b] and the returned [bool]
    ("false if the player can resign"). *)
Definition evaluate_position (e : engine) (b : board) (is_black : bool)
  (stop_time early_stop_time : Z) : engine * out_board * bool :=
  let search (tmp : board) :=
    let '(t, out_b, win_rate) :=
      mcts_start (table e) tmp is_black stop_time early_stop_time in
    (mk_engine (use_opening_book e) true (komi_offset e) t (output e),
     out_b,
     Qle_bool UCT_MIN_WINRATE win_rate) in
  if use_opening_book e then
    let '(tmp, reduction) := reduce_auto b is_black in
    match opening_book tmp with
    | Some out_b => (e, oboard_revert_reduce out_b reduction, true)
    | None => search b
    end
  else search b.

(** The call returns from inside [if(opening_book(&tmp, out_b))]. *)
Definition book_hit (e : engine) (b : board) (is_black : bool) : bool :=
  use_opening_book e &&
  match opening_book (fst (reduce_auto b is_black)) with
  | Some _ => true
  | None => false
  end.

Definition new_match_maintenance (e : engine) : engine :=
  mk_engine (use_opening_book e) false 0
    (tt_clean_all (transpositions_table_init (table e)))
    (output e ++ [freed_all_states]).

Definition opt_turn_maintenance (e : engine) (b : board) (is_black : bool)
  : engine :=
  if tt_requires_maintenance e then
    let '(t, freed) := tt_clean_outside_tree (table e) b is_black in
    mk_engine (use_opening_book e) false (komi_offset e) t
      (output e ++ [freed_states freed (freed * sizeof_tt_stats / 1048576)])
  else e.

(** The calls a driver makes, in order. *)
Inductive call : Type :=
| Evaluate (b : board) (is_black : bool) (stop_time early_stop_time : Z)
| TurnMaintenance (b : board) (is_black : bool)
| MatchMaintenance
| UseOpeningBook (use_ob : bool).

Definition perform (e : engine) (c : call) : engine :=
  match c with
  | Evaluate b is_black stop_time early_stop_time =>
      fst (fst (evaluate_position e b is_black stop_time early_stop_time))
  | TurnMaintenance b is_black => opt_turn_maintenance e b is_black
  | MatchMaintenance => new_match_maintenance e
  | UseOpeningBook use_ob => set_use_of_opening_book use_ob e
  end.

Definition perform_all (e : engine) (cs : list call) : engine :=
  fold_left perform cs e.

(** The spec's condition for a prune, read off a history of calls: some
    evaluation took the search path since the last maintenance pass.
    [use_ob] is the opening-book switch before the first call and [pending]
    the condition before it. *)
Fixpoint searched_since_maintenance (use_ob pending : bool) (cs : list call)
  : bool :=
  match cs with
  | [] => pending
  | Evaluate b is_black _ _ :: cs' =>
      let hit := use_ob &&
                 match opening_book (fst (reduce_auto b is_black)) with
                 | Some _ => true
                 | None => false
                 end in
      searched_since_maintenance use_ob (if hit then pending else true) cs'
  | TurnMaintenance _ _ :: cs' =>
      searched_since_maintenance use_ob false cs'
  | MatchMaintenance :: cs' =>
      searched_since_maintenance use_ob false cs'
  | UseOpeningBook use_ob' :: cs' =>
      searched_since_maintenance use_ob' pending cs'
  end.

(** [opt_turn_maintenance] called the table's [tt_clean_outside_tree]: it
    wrote the record of the states freed. *)
Definition pruned (before after : engine) : bool :=
  (List.length (output before) <? List.length (output after))%nat.

End Engine.

End Engine.

(** ** Notions for the further properties *)

(** The fields [advance_clock] reads but never writes. *)
Definition same_configuration (ts ts' : time_system) : Prop :=
  can_timeout ts' = can_timeout ts /\
  main_time ts' = main_time ts /\
  byo_yomi_time ts' = byo_yomi_time ts /\
  byo_yomi_stones ts' = byo_yomi_stones ts /\
  byo_yomi_periods ts' = byo_yomi_periods ts.

(** A clock that has timed out has nothing left to spend. *)
Definition exhausted_if_timed_out (ts : time_system) : Prop :=
  timed_out ts = true ->
  can_timeout ts = true /\
  main_time_remaining ts = 0 /\
  byo_yomi_time_remaining ts = 0 /\
  byo_yomi_periods_remaining ts = 0.

(** The clock after a move made in overtime with period time to spare. *)
Definition moved_in_period (ts : time_system) (ms : Z) : time_system :=
  if byo_yomi_stones_remaining ts =? 1 then
    mk_time_system (can_timeout ts) (timed_out ts)
      (main_time ts) (main_time_remaining ts)
      (byo_yomi_time ts) (byo_yomi_time ts)
      (byo_yomi_stones ts) (byo_yomi_stones ts)
      (byo_yomi_periods ts) (byo_yomi_periods_remaining ts)
  else
    mk_time_system (can_timeout ts) (timed_out ts)
      (main_time ts) (main_time_remaining ts)
      (byo_yomi_time ts) (byo_yomi_time_remaining ts - ms)
      (byo_yomi_stones ts) (byo_yomi_stones_remaining ts - 1)
      (byo_yomi_periods ts) (byo_yomi_periods_remaining ts).

(** All the time a clock has left: the main time, the running period and the
    periods after it. *)
Definition time_left (ts : time_system) : Z :=
  main_time_remaining ts + byo_yomi_time_remaining ts
  + (byo_yomi_periods_remaining ts - 1) * byo_yomi_time ts.

(** A sudden-death clock that has lost on time. *)
Definition flag_fallen (ts : time_system) : time_system :=
  mk_time_system true true (main_time ts) 0 0 0 0 0 0 0.

(** The unit and magnitude the largest exact unit gives. *)
Definition exact_unit (t : Z) : Z * string :=
  if t =? 0 then (0, ""%string)
  else if t mod 3600000 =? 0 then (t / 3600000, "h"%string)
  else if t mod 60000 =? 0 then (t / 60000, "m"%string)
  else if t mod 1000 =? 0 then (t / 1000, "s"%string)
  else (t, "ms"%string).

(** ** The data folder ([get_data_folder], [set_data_folder]) *)

Module DataFolder.

Section DataFolder.

(** [MAX_PATH_SIZ], a constant of a header that is not part of the sources at
    hand. *)
Variable MAX_PATH_SIZ : Z.

(** [snprintf(_data_folder, MAX_PATH_SIZ, ...)] keeps at most
    [MAX_PATH_SIZ - 1] characters. *)
Definition snprintf_path (s : string) : string :=
  substring 0 (Z.to_nat (MAX_PATH_SIZ - 1)) s.

(** [s[l - 1] == '/']. *)
Definition ends_with_separator (s : string) : bool :=
  match String.get (String.length s - 1) s with
  | Some c => Ascii.eqb c "/"
  | None => false
  end.

(** [get_data_folder]: the contents of [_data_folder]. *)
Definition get_data_folder (_data_folder : string) : string := _data_folder.

(** [set_data_folder]: the returned [bool] and the new contents of
    [_data_folder].  [l] is a [u32]; the comparison with the [int]
    [MAX_PATH_SIZ - 1] is made on unsigned values. *)
Definition set_data_folder (_data_folder : string) (s : string)
  : bool * string :=
  let l := U32.wrap (Z.of_nat (String.length s)) in
  if (l <? 2) || (U32.wrap (MAX_PATH_SIZ - 1) <=? l) then
    (false, _data_folder)
  else if ends_with_separator s then (true, snprintf_path s)
  else (true, snprintf_path (s ++ "/")).

End DataFolder.

End DataFolder.

(** ** The command line of [ob_learn/main.c] *)

Module ObLearn.

(** The three settings the options change. *)
Record settings : Type := mk_settings {
  relax_komi : bool;
  ob_depth : Z;
  minimum_samples : Z
}.

(** How the loop over [argv] ends: [exit] after the version, [exit] after
    the usage text (which prints [ob_depth] and [minimum_samples] as the
    defaults), or on to the rest of [main]. *)
Inductive outcome : Type :=
| version_printed
| usage_printed (ob_depth minimum_samples : Z)
| proceed (s : settings).

Section Arguments.

(** [parse_int] of [stringm.c], which is not part of the sources at hand; its
    result is stored in a [d32]. *)
Variable parse_int : string -> option Z.
Variable BOARD_SIZ : Z.

(** The initializers of the three static variables. *)
Definition defaults : settings :=
  mk_settings true (Z.quot (BOARD_SIZ * BOARD_SIZ) 2) 32.

(** The body of [for(int i = 1; i < argc; ++i)], on [argv[1]] onwards. *)
Fixpoint arguments (argv : list string) (s : settings) : outcome :=
  match argv with
  | [] => proceed s
  | a :: rest =>
      let otherwise :=
        if String.eqb a "-relax_komi" then
          arguments rest (mk_settings true (ob_depth s) (minimum_samples s))
        else usage_printed (ob_depth s) (minimum_samples s) in
      if String.eqb a "-version" then version_printed
      else
        match rest with
        | v :: rest' =>
            if String.eqb a "-max_depth" then
              match option_map S32.wrap (parse_int v) with
              | Some x =>
                  if x <? 1 then
                    usage_printed (ob_depth s) (minimum_samples s)
                  else
                    arguments rest'
                      (mk_settings (relax_komi s) x (minimum_samples s))
              | None => usage_printed (ob_depth s) (minimum_samples s)
              end
            else if String.eqb a "-min_samples" then
              match option_map S32.wrap (parse_int v) with
              | Some x =>
                  if x <? 1 then
                    usage_printed (ob_depth s) (minimum_samples s)
                  else
                    arguments rest' (mk_settings (relax_komi s) (ob_depth s) x)
              | None => usage_printed (ob_depth s) (minimum_samples s)
              end
            else otherwise
        | [] => otherwise
        end
  end.

(** The settings [main] goes on with, if it does. *)
Definition main_arguments (argv : list string) : outcome :=
  arguments argv defaults.

End Arguments.

End ObLearn.

(** What holds of the settings however the options change them. *)
Definition sound_settings (default_depth : Z) (s : ObLearn.settings)
  : Prop :=
  ObLearn.relax_komi s = true /\
  1 <= ObLearn.minimum_samples s <= S32.max /\
  (ObLearn.ob_depth s = default_depth \/
   1 <= ObLearn.ob_depth s <= S32.max).


(** * Properties *)

(** ** Machine integers *)

Ltac u32 :=
  unfold U32.in_range, U32.sub, U32.dec, U32.wrap, U32.max, U32.modulus in *;
  Z.div_mod_to_equations; lia.

Ltac split_eqb :=
  repeat match goal with
  | |- context [?a =? ?b] => destruct (Z.eqb_spec a b)
  end.

Lemma wrap_range x : U32.in_range (U32.wrap x).
Proof. u32. Qed.

(** ** The clock *)

Ltac wf_field := simpl; first [assumption | apply wrap_range].

Lemma loop_body_well_formed ts ms c :
  well_formed ts -> U32.in_range ms ->
  match loop_body ts ms c with
  | Return ts' => well_formed ts'
  | Continue ts' ms' _ => well_formed ts' /\ U32.in_range ms'
  end.
Proof.
  intros [] Hms. destruct ts; simpl in *.
  unfold loop_body; simpl.
  destruct c; simpl; split_eqb; simpl;
    lazymatch goal with
    | |- well_formed _ => constructor; wf_field
    | |- _ /\ _ => split; [constructor; wf_field | wf_field]
    end.
Qed.

(** More fuel does not change a result. *)
Lemma advance_loop_fuel_mono fuel : forall ts ms c r,
  advance_loop fuel ts ms c = Some r ->
  forall fuel', (fuel <= fuel')%nat -> advance_loop fuel' ts ms c = Some r.
Proof.
  induction fuel as [|fuel IH]; intros ts ms c r H fuel' Hle.
  - simpl in H. destruct fuel'; simpl; destruct (0 <? ms); congruence.
  - destruct fuel' as [|fuel']; [lia|].
    simpl in *. destruct (0 <? ms); [|exact H].
    destruct (loop_body ts ms c) as [ts'|ts' ms' c']; [exact H|].
    apply (IH _ _ _ _ H). lia.
Qed.

Lemma advance_clock_fuel_mono fuel fuel' ts ms r :
  advance_clock fuel ts ms = Some r -> (fuel <= fuel')%nat ->
  advance_clock fuel' ts ms = Some r.
Proof.
  unfold advance_clock. destruct (negb (can_timeout ts) || timed_out ts).
  - auto.
  - intros H Hle. exact (advance_loop_fuel_mono _ _ _ _ _ H _ Hle).
Qed.

(** A call has one outcome. *)
Lemma advances_to_deterministic ts ms r1 r2 :
  advances_to ts ms r1 -> advances_to ts ms r2 -> r1 = r2.
Proof.
  intros [f1 H1] [f2 H2].
  apply (advance_clock_fuel_mono _ (Nat.max f1 f2)) in H1; [|lia].
  apply (advance_clock_fuel_mono _ (Nat.max f1 f2)) in H2; [|lia].
  congruence.
Qed.

(** *** Termination of the loop *)

Lemma loop_measure_nonneg ts ms : 0 <= ms -> 0 <= loop_measure ts ms.
Proof. unfold loop_measure. intros. u32. Qed.

Lemma loop_body_decreases ts ms c :
  well_formed ts -> U32.in_range ms -> 0 < ms ->
  match loop_body ts ms c with
  | Return _ => True
  | Continue ts' ms' _ => loop_measure ts' ms' < loop_measure ts ms
  end.
Proof.
  intros [] Hms Hpos. destruct ts; simpl in *.
  unfold loop_body, loop_measure; simpl.
  destruct c; simpl; split_eqb; simpl; try exact I; u32.
Qed.

Lemma advance_loop_terminates fuel : forall ts ms c,
  well_formed ts -> U32.in_range ms ->
  loop_measure ts ms < Z.of_nat fuel ->
  exists r, advance_loop fuel ts ms c = Some r.
Proof.
  induction fuel as [|fuel IH]; intros ts ms c Hwf Hms Hm.
  - pose proof (loop_measure_nonneg ts ms). unfold U32.in_range in Hms. lia.
  - simpl. destruct (Z.ltb_spec 0 ms) as [Hpos|_]; [|eauto].
    pose proof (loop_body_decreases ts ms c Hwf Hms Hpos) as Hd.
    pose proof (loop_body_well_formed ts ms c Hwf Hms) as Hw.
    destruct (loop_body ts ms c) as [ts'|ts' ms' c']; [eauto|].
    destruct Hw. apply IH; auto. lia.
Qed.

Lemma advance_clock_returns ts ms :
  well_formed ts -> U32.in_range ms -> exists r, advances_to ts ms r.
Proof.
  intros Hwf Hms. unfold advances_to, advance_clock.
  destruct (negb (can_timeout ts) || timed_out ts).
  - exists ts, O. reflexivity.
  - destruct (advance_loop_terminates (S (Z.to_nat (loop_measure ts ms)))
                ts ms false Hwf Hms) as [r Hr].
    + pose proof (loop_measure_nonneg ts ms). unfold U32.in_range in Hms. lia.
    + eauto.
Qed.

(** *** What a call preserves *)

Lemma loop_body_byo ts ms c :
  well_formed ts -> U32.in_range ms -> 0 < ms ->
  byo_steady ts -> timed_out ts = false ->
  match loop_body ts ms c with
  | Return ts' => byo_steady ts'
  | Continue ts' _ _ => byo_steady ts' /\ timed_out ts' = false
  end.
Proof.
  intros [] Hms Hpos (Hc & Hs & Hp & Hb & Hr) Ht.
  specialize (Hr Ht). unfold within_bounds in Hb.
  destruct ts; simpl in *. subst.
  unfold loop_body, byo_steady, within_bounds; simpl.
  destruct c; simpl; split_eqb; simpl;
    repeat match goal with
    | |- _ /\ _ => split
    | |- _ -> _ => intro
    end; try reflexivity; try discriminate; u32.
Qed.

Lemma advance_loop_byo fuel : forall ts ms c r,
  well_formed ts -> U32.in_range ms ->
  byo_steady ts -> timed_out ts = false ->
  advance_loop fuel ts ms c = Some r -> byo_steady r.
Proof.
  induction fuel as [|fuel IH]; intros ts ms c r Hwf Hms Hb Ht H; simpl in H;
    destruct (Z.ltb_spec 0 ms) as [Hpos|Hle]; try congruence.
  pose proof (loop_body_byo ts ms c Hwf Hms Hpos Hb Ht) as Hi.
  pose proof (loop_body_well_formed ts ms c Hwf Hms) as Hw.
  destruct (loop_body ts ms c) as [ts'|ts' ms' c'].
  - congruence.
  - destruct Hi, Hw. eapply IH; eauto.
Qed.

Lemma loop_body_sudden ts ms c :
  well_formed ts -> U32.in_range ms -> 0 < ms ->
  sudden_loop ts ms c ->
  match loop_body ts ms c with
  | Return ts' => sudden_steady ts'
  | Continue ts' ms' c' => sudden_loop ts' ms' c'
  end.
Proof.
  intros [] Hms Hpos (Ht & Hs & Hp & Htr & Hsr & Hm & Hf & Hc).
  destruct ts; simpl in *. subst.
  unfold loop_body, sudden_loop, sudden_steady; simpl.
  destruct c; simpl;
    [destruct (Hc eq_refl) as [_ Hz]; subst | specialize (Hf eq_refl); subst];
    split_eqb; simpl;
    repeat match goal with
    | |- _ /\ _ => split
    | |- _ -> _ => intro
    end; try reflexivity; try discriminate; try (exfalso; u32); u32.
Qed.

Lemma advance_loop_sudden fuel : forall ts ms c r,
  well_formed ts -> U32.in_range ms ->
  sudden_loop ts ms c ->
  advance_loop fuel ts ms c = Some r -> sudden_steady r.
Proof.
  induction fuel as [|fuel IH]; intros ts ms c r Hwf Hms Hl H; simpl in H;
    destruct (Z.ltb_spec 0 ms) as [Hpos|Hle]; try congruence.
  - injection H as <-.
    destruct Hl as (Ht & Hs & Hp & Htr & Hsr & Hm & Hf & Hc).
    unfold sudden_steady. repeat split; try assumption; try lia.
    destruct c; [destruct (Hc eq_refl); lia | auto].
  - pose proof (loop_body_sudden ts ms c Hwf Hms Hpos Hl) as Hi.
    pose proof (loop_body_well_formed ts ms c Hwf Hms) as Hw.
    destruct (loop_body ts ms c) as [ts'|ts' ms' c'].
    + congruence.
    + destruct Hw. eapply IH; eauto.
  - injection H as <-.
    destruct Hl as (Ht & Hs & Hp & Htr & Hsr & Hm & Hf & Hc).
    unfold sudden_steady. repeat split; try assumption; try lia.
    destruct c; [destruct (Hc eq_refl); lia | auto].
Qed.

Lemma steady_within_bounds ts : steady ts -> within_bounds ts.
Proof.
  intros [Hwf [H | [H | H]]].
  - apply H.
  - destruct H as (Ht & Hs & Hp & Htr & Hsr & Hpr & Hm).
    unfold within_bounds. lia.
  - apply H.
Qed.

Lemma proper_preset_steady ts : proper_preset ts -> steady ts.
Proof.
  destruct 1; (split; [constructor; simpl; auto; u32|]).
  - left. unfold byo_steady, within_bounds; simpl.
    repeat split; auto; u32.
  - right; left. unfold sudden_steady; simpl. repeat split; u32.
  - right; right. unfold idle, within_bounds; simpl. repeat split; u32.
Qed.

Lemma advance_loop_well_formed fuel : forall ts ms c r,
  well_formed ts -> U32.in_range ms ->
  advance_loop fuel ts ms c = Some r -> well_formed r.
Proof.
  induction fuel as [|fuel IH]; intros ts ms c r Hwf Hms H; simpl in H;
    destruct (0 <? ms); try congruence.
  pose proof (loop_body_well_formed ts ms c Hwf Hms) as Hw.
  destruct (loop_body ts ms c) as [ts'|ts' ms' c'].
  - congruence.
  - destruct Hw. eapply IH; eauto.
Qed.

Lemma advance_clock_steady ts ms r :
  steady ts -> U32.in_range ms -> advances_to ts ms r -> steady r.
Proof.
  intros [Hwf Hs] Hms [fuel H]. unfold advance_clock in H.
  destruct (can_timeout ts) eqn:Hc, (timed_out ts) eqn:Ht; simpl in H;
    try (injection H as <-; split; assumption).
  split; [eapply advance_loop_well_formed; eauto|].
  destruct Hs as [Hb | [Hd | [Hi _]]]; [| |congruence].
  - left. eapply advance_loop_byo; eauto.
  - right; left. eapply advance_loop_sudden; eauto.
    destruct Hd as (? & ? & ? & ? & ? & ? & ?).
    unfold sudden_loop. repeat split; auto; try lia; discriminate.
Qed.

Lemma run_steady ts calls after :
  steady ts -> Forall U32.in_range calls -> run ts calls after ->
  Forall steady after.
Proof.
  intros Hs Hc Hr. revert Hs Hc.
  induction Hr as [|ts ms ts' rest after Ha Hr IH]; intros Hs Hc.
  - constructor.
  - inversion Hc; subst.
    assert (steady ts') by (eapply advance_clock_steady; eauto).
    constructor; auto.
Qed.

Lemma run_exists ts calls :
  steady ts -> Forall U32.in_range calls -> exists after, run ts calls after.
Proof.
  intros Hs Hc. revert ts Hs.
  induction Hc as [|ms rest Hms Hc IH]; intros ts Hs.
  - exists []. constructor.
  - destruct (advance_clock_returns ts ms (proj1 Hs) Hms) as [ts' Ha].
    destruct (IH ts' (advance_clock_steady _ _ _ Hs Hms Ha)) as [after Hr].
    exists (ts' :: after). econstructor; eauto.
Qed.

Lemma run_deterministic ts calls after1 :
  run ts calls after1 -> forall after2, run ts calls after2 -> after1 = after2.
Proof.
  induction 1 as [|ts ms ts' rest after Ha Hr IH]; intros after2 H2;
    inversion H2; subst.
  - reflexivity.
  - assert (ts' = ts'0) by (eapply advances_to_deterministic; eauto).
    subst. f_equal. auto.
Qed.

(** C1 (amended).  For a clock built by [set_sudden_death], by
    [set_time_per_turn], or by [set_time_system] with at least one stone and
    at least one period, every sequence of [advance_clock] calls with [u32]
    arguments runs to completion, in one way only, and the clock it leaves
    after each call has [main_time_remaining], [byo_yomi_time_remaining],
    [byo_yomi_stones_remaining] and [byo_yomi_periods_remaining] between zero
    and the configured value. *)
Theorem clock_conservation ts calls :
  proper_preset ts -> Forall U32.in_range calls ->
  within_bounds ts /\
  exists after,
    run ts calls after /\
    (forall after', run ts calls after' -> after' = after) /\
    Forall within_bounds after.
Proof.
  intros Hp Hc. pose proof (proper_preset_steady ts Hp) as Hs.
  split; [apply steady_within_bounds; assumption|].
  destruct (run_exists ts calls Hs Hc) as [after Hr].
  exists after. split; [assumption|]. split.
  - intros after' Hr'. eapply run_deterministic; eauto.
  - eapply Forall_impl; [|eapply run_steady; eauto].
    apply steady_within_bounds.
Qed.

Lemma clock_conservation_witness :
  within_bounds (set_sudden_death 1000) /\
  exists after,
    run (set_sudden_death 1000) [400; 700] after /\
    (forall after', run (set_sudden_death 1000) [400; 700] after' ->
                    after' = after) /\
    Forall within_bounds after.
Proof.
  apply (clock_conservation (set_sudden_death 1000) [400; 700]).
  - apply proper_sudden_death. unfold U32.in_range, U32.modulus. lia.
  - repeat constructor; unfold U32.modulus; lia.
Defined.

(** C1 as stated fails: [set_time_system] accepts zero periods and zero
    stones.  With zero periods, one call that uses up the period time wraps
    [byo_yomi_periods_remaining] around to 4294967295, above the configured
    0; with zero stones, the first call in overtime does the same to
    [byo_yomi_stones_remaining]. *)
Lemma clock_conservation_counterexample :
  (preset (set_time_system 0 30000 1 0) /\
   run (set_time_system 0 30000 1 0) [30000]
     [mk_time_system true false 0 0 30000 30000 1 1 0 4294967295] /\
   ~ within_bounds
       (mk_time_system true false 0 0 30000 30000 1 1 0 4294967295)) /\
  (preset (set_time_system 0 30000 0 1) /\
   run (set_time_system 0 30000 0 1) [1]
     [mk_time_system true false 0 0 30000 29999 0 4294967295 1 1] /\
   ~ within_bounds
       (mk_time_system true false 0 0 30000 29999 0 4294967295 1 1)).
Proof.
  split; (split; [|split]).
  - constructor; unfold U32.in_range, U32.modulus; lia.
  - econstructor; [exists 1%nat; reflexivity | constructor].
  - unfold within_bounds; simpl. lia.
  - constructor; unfold U32.in_range, U32.modulus; lia.
  - econstructor; [exists 1%nat; reflexivity | constructor].
  - unfold within_bounds; simpl. lia.
Qed.

(** *** The scenarios of the specification *)

(** Inside a call on an exhausted sudden-death clock the counters do leave
    their bounds: the first pass wraps both, and the loop then counts
    [byo_yomi_periods_remaining] down to zero before the call returns. *)
Remark sudden_death_wraps_inside_call :
  loop_body (set_sudden_death 0) 1 false
  = Continue (mk_time_system true false 0 0 0 0 0 0 0 4294967295) 1 true.
Proof. reflexivity. Qed.

Remark reset_clock_idempotent ts :
  reset_clock (reset_clock ts) = reset_clock ts.
Proof. reflexivity. Qed.

(** C2 (amended).  On the clock [set_time_system] builds with main time 0,
    byo-yomi time 30000, 1 stone and 1 period, which can time out, a single
    [advance_clock] of 30000 ms returns with [timed_out] set. *)
Theorem timeout_scenario fuel :
  advance_clock (S fuel) (set_time_system 0 30000 1 1) 30000
  = Some (mk_time_system true true 0 0 30000 0 1 0 1 0) /\
  option_map timed_out
    (advance_clock (S fuel) (set_time_system 0 30000 1 1) 30000)
  = Some true.
Proof. split; reflexivity. Qed.

(** C2 as stated fails: [set_time_per_turn 30000] has exactly the
    configuration 0, 30000, 1, 1, and [advance_clock] leaves it alone
    because it cannot time out. *)
Lemma timeout_scenario_counterexample :
  main_time (set_time_per_turn 30000) = 0 /\
  byo_yomi_time (set_time_per_turn 30000) = 30000 /\
  byo_yomi_stones (set_time_per_turn 30000) = 1 /\
  byo_yomi_periods (set_time_per_turn 30000) = 1 /\
  (forall fuel,
     advance_clock fuel (set_time_per_turn 30000) 30000
     = Some (set_time_per_turn 30000)) /\
  timed_out (set_time_per_turn 30000) = false.
Proof. repeat split. Qed.

(** *** One stone per call *)

Ltac fields_in_all :=
  cbn [can_timeout timed_out main_time main_time_remaining byo_yomi_time
       byo_yomi_time_remaining byo_yomi_stones byo_yomi_stones_remaining
       byo_yomi_periods byo_yomi_periods_remaining] in *.

Lemma advance_loop_unfold fuel ts ms c :
  advance_loop (S fuel) ts ms c =
  if 0 <? ms then
    match loop_body ts ms c with
    | Return ts' => Some ts'
    | Continue ts' ms' c' => advance_loop fuel ts' ms' c'
    end
  else Some ts.
Proof. reflexivity. Qed.

(** What a pass in overtime does to the stones: it takes one unless an
    earlier pass of the call was in overtime, and it may refill them. *)
Lemma loop_body_stones ts ms (c : bool) :
  main_time_remaining ts = 0 ->
  let charged := if c then byo_yomi_stones_remaining ts
                 else U32.dec (byo_yomi_stones_remaining ts) in
  match loop_body ts ms c with
  | Return ts' => byo_yomi_stones_remaining ts' = charged
  | Continue ts' _ c' =>
      c' = true /\
      (byo_yomi_stones_remaining ts' = charged \/
       byo_yomi_stones_remaining ts' = byo_yomi_stones ts)
  end.
Proof.
  intros Hm. unfold loop_body. rewrite Hm. cbn [Z.eqb].
  destruct c; cbn; split_eqb; cbn; auto.
Qed.

(** A pass in main time leaves the stones and the flag as they are. *)
Lemma loop_body_main_stones ts ms c :
  main_time_remaining ts <> 0 ->
  exists ts' ms',
    loop_body ts ms c = Continue ts' ms' c /\
    byo_yomi_stones_remaining ts' = byo_yomi_stones_remaining ts.
Proof.
  intros Hm. unfold loop_body.
  destruct (Z.eqb_spec (main_time_remaining ts) 0); [contradiction|].
  do 2 eexists. split; reflexivity.
Qed.

Lemma loop_body_continue_flag ts ms c ts' ms' c' :
  loop_body ts ms c = Continue ts' ms' c' -> timed_out ts' = timed_out ts.
Proof.
  unfold loop_body.
  destruct c; split_eqb; intros H; try discriminate H;
    injection H as <- _ _; reflexivity.
Qed.

(** The pass that uses up the main time. *)
Lemma loop_body_main_time ts ms c :
  well_formed ts -> U32.in_range ms ->
  0 < main_time_remaining ts <= ms ->
  loop_body ts ms c
  = Continue (set_main_time_remaining ts 0) (ms - main_time_remaining ts) c.
Proof.
  intros [] Hms Hm.
  destruct ts as [ct tout mt mtr bt btr bs bsr bp bpr]; fields_in_all.
  unfold loop_body; fields_in_all.
  destruct (Z.eqb_spec mtr 0); [lia|].
  replace (Z.min mtr ms) with mtr by lia.
  replace (U32.sub mtr mtr) with 0 by u32.
  replace (U32.sub ms mtr) with (ms - mtr) by u32.
  reflexivity.
Qed.

Lemma loop_body_rollover ts ms c :
  well_formed ts -> U32.in_range ms ->
  main_time_remaining ts = 0 ->
  byo_yomi_time_remaining ts <= ms ->
  byo_yomi_periods_remaining ts <> 1 ->
  loop_body ts ms c
  = Continue (rolled_over ts) (ms - byo_yomi_time_remaining ts) true.
Proof.
  intros [] Hms Hm Hle Hp.
  destruct ts as [ct tout mt mtr bt btr bs bsr bp bpr]; fields_in_all.
  subst.
  unfold loop_body, rolled_over, replenish; fields_in_all.
  replace (Z.min btr ms) with btr by lia.
  replace (U32.sub btr btr) with 0 by u32.
  replace (U32.sub ms btr) with (ms - btr) by u32.
  destruct c; cbn;
    (destruct (Z.eqb_spec (U32.dec bpr) 0);
     [exfalso; u32 | reflexivity]).
Qed.

Lemma loop_body_last_period ts ms :
  well_formed ts -> U32.in_range ms ->
  main_time_remaining ts = 0 ->
  byo_yomi_time_remaining ts <= ms ->
  byo_yomi_periods_remaining ts = 1 ->
  loop_body ts ms true
  = Return (mk_time_system (can_timeout ts) true
              (main_time ts) (main_time_remaining ts)
              (byo_yomi_time ts) 0
              (byo_yomi_stones ts) (byo_yomi_stones_remaining ts)
              (byo_yomi_periods ts) 0).
Proof.
  intros [] Hms Hm Hle Hp.
  destruct ts as [ct tout mt mtr bt btr bs bsr bp bpr]; fields_in_all.
  subst.
  unfold loop_body; fields_in_all.
  replace (Z.min btr ms) with btr by lia.
  replace (U32.sub btr btr) with 0 by u32.
  reflexivity.
Qed.

(** The first pass in overtime when it uses up the last period: the call
    returns, and the stone the pass took stays taken. *)
Lemma loop_body_flag_falls ts ms :
  well_formed ts -> U32.in_range ms ->
  main_time_remaining ts = 0 ->
  byo_yomi_time_remaining ts <= ms ->
  byo_yomi_periods_remaining ts = 1 ->
  loop_body ts ms false
  = Return (mk_time_system (can_timeout ts) true
              (main_time ts) 0
              (byo_yomi_time ts) 0
              (byo_yomi_stones ts) (U32.dec (byo_yomi_stones_remaining ts))
              (byo_yomi_periods ts) 0).
Proof.
  intros [] Hms Hm Hle Hp.
  destruct ts as [ct tout mt mtr bt btr bs bsr bp bpr]; fields_in_all.
  subst.
  unfold loop_body; fields_in_all.
  replace (Z.min btr ms) with btr by lia.
  replace (U32.sub btr btr) with 0 by u32.
  reflexivity.
Qed.

Lemma loop_body_within_period ts ms :
  well_formed ts -> U32.in_range ms ->
  main_time_remaining ts = 0 ->
  0 < ms < byo_yomi_time_remaining ts ->
  byo_yomi_stones_remaining ts = byo_yomi_stones ts ->
  exists ts',
    loop_body ts ms true = Continue ts' 0 true /\
    byo_yomi_stones_remaining ts' = byo_yomi_stones ts /\
    byo_yomi_periods_remaining ts' = byo_yomi_periods_remaining ts.
Proof.
  intros [] Hms Hm Hlt Hs.
  destruct ts as [ct tout mt mtr bt btr bs bsr bp bpr]; fields_in_all.
  subst.
  unfold loop_body, replenish; fields_in_all.
  replace (Z.min btr ms) with ms by lia.
  replace (U32.sub ms ms) with 0 by u32.
  cbn.
  destruct (Z.eqb_spec (U32.sub btr ms) 0); [exfalso; u32|].
  destruct (Z.eqb_spec bs 0); cbn;
    (eexists; split; [reflexivity | split; reflexivity]).
Qed.

Lemma rolled_over_well_formed ts :
  well_formed ts -> well_formed (rolled_over ts).
Proof.
  intros []. constructor; cbn; try assumption. apply wrap_range.
Qed.

(** A call in overtime that reaches past the running period and into the
    one after it. *)
Lemma advance_loop_two_periods ts ms :
  well_formed ts -> U32.in_range ms ->
  main_time_remaining ts = 0 ->
  byo_yomi_time_remaining ts + byo_yomi_time ts <= ms
    < byo_yomi_time_remaining ts + 2 * byo_yomi_time ts ->
  exists r,
    advance_loop 3 ts ms false = Some r /\
    if byo_yomi_periods_remaining ts =? 1 then
      timed_out r = true /\
      byo_yomi_stones_remaining r = U32.dec (byo_yomi_stones_remaining ts) /\
      byo_yomi_periods_remaining r = 0
    else
      timed_out r = (timed_out ts || (byo_yomi_periods_remaining ts =? 2)) /\
      byo_yomi_stones_remaining r = byo_yomi_stones ts /\
      byo_yomi_periods_remaining r
      = U32.sub (byo_yomi_periods_remaining ts) 2.
Proof.
  intros Hwf Hms Hm Hspan.
  assert (Hr : U32.in_range (byo_yomi_time_remaining ts)
               /\ U32.in_range (byo_yomi_time ts)
               /\ U32.in_range (byo_yomi_periods_remaining ts))
    by (destruct Hwf; auto).
  destruct Hr as (Hr1 & Hr2 & Hr3).
  set (ms1 := ms - byo_yomi_time_remaining ts).
  set (ms2 := ms1 - byo_yomi_time ts).
  assert (Hms1 : U32.in_range ms1) by (subst ms1; u32).
  assert (Hms2 : U32.in_range ms2) by (subst ms2 ms1; u32).
  pose proof (rolled_over_well_formed ts Hwf) as Hwf1.
  pose proof (rolled_over_well_formed _ Hwf1) as Hwf2.
  rewrite advance_loop_unfold.
  replace (0 <? ms) with true by (symmetry; apply Z.ltb_lt; u32).
  destruct (Z.eqb_spec (byo_yomi_periods_remaining ts) 1) as [Hp | Hp].
  { rewrite (loop_body_flag_falls ts ms Hwf Hms Hm) by (assumption || lia).
    eexists. split; [reflexivity|]. cbn. repeat split. }
  rewrite (loop_body_rollover ts ms false Hwf Hms Hm) by lia.
  fold ms1.
  rewrite advance_loop_unfold.
  replace (0 <? ms1) with true by (symmetry; apply Z.ltb_lt; subst ms1; u32).
  destruct (Z.eqb_spec (byo_yomi_periods_remaining ts) 2) as [Hp2 | Hp2].
  - (* the second rollover uses up the last period *)
    rewrite (loop_body_last_period (rolled_over ts) ms1 Hwf1 Hms1)
      by (cbn; first [assumption | subst ms1; lia | rewrite Hp2; reflexivity]).
    eexists. split; [reflexivity|].
    cbn. rewrite Hp2, orb_true_r. repeat split.
  - rewrite (loop_body_rollover (rolled_over ts) ms1 true Hwf1 Hms1)
      by (cbn; first [assumption | subst ms1; lia | u32]).
    change (ms1 - byo_yomi_time_remaining (rolled_over ts)) with ms2.
    rewrite advance_loop_unfold.
    assert (Hd : byo_yomi_periods_remaining (rolled_over (rolled_over ts))
                 = U32.sub (byo_yomi_periods_remaining ts) 2)
      by (cbn; u32).
    rewrite orb_false_r.
    destruct (Z.ltb_spec 0 ms2) as [Hpos | Hle].
    + destruct (loop_body_within_period (rolled_over (rolled_over ts)) ms2
                  Hwf2 Hms2) as (ts3 & E & Hs3 & Hp3);
        try (cbn; first [assumption | reflexivity | subst ms2 ms1; lia]).
      pose proof (loop_body_continue_flag _ _ _ _ _ _ E) as Ht3.
      rewrite E.
      replace (advance_loop 0 ts3 0 true) with (Some ts3) by reflexivity.
      exists ts3. split; [reflexivity|].
      split; [exact Ht3|]. split; [exact Hs3 | congruence].
    + eexists. split; [reflexivity|].
      split; [reflexivity|]. split; [reflexivity | exact Hd].
Qed.




(** ** Textual time systems *)

(** *** Strings *)

Lemma string_app_assoc (s1 s2 s3 : string) :
  ((s1 ++ s2) ++ s3 = s1 ++ s2 ++ s3)%string.
Proof. induction s1 as [|c s1 IH]; simpl; [reflexivity | now rewrite IH]. Qed.

Lemma string_app_length (s1 s2 : string) :
  String.length (s1 ++ s2) = (String.length s1 + String.length s2)%nat.
Proof. induction s1 as [|c s1 IH]; simpl; [reflexivity | now rewrite IH]. Qed.

Lemma all_chars_app p s1 s2 :
  all_chars p (s1 ++ s2) = all_chars p s1 && all_chars p s2.
Proof.
  induction s1 as [|c s1 IH]; simpl; [reflexivity|].
  now rewrite IH, andb_assoc.
Qed.

Lemma all_chars_impl (p q : ascii -> bool) s :
  (forall c, p c = true -> q c = true) ->
  all_chars p s = true -> all_chars q s = true.
Proof.
  intros Hpq. induction s as [|c s IH]; simpl; [reflexivity|].
  intros H. apply andb_true_iff in H as [Hc Hs].
  now rewrite (Hpq c Hc), IH.
Qed.

Lemma substring_whole n s :
  (String.length s <= n)%nat -> substring 0 n s = s.
Proof.
  revert n. induction s as [|c s IH]; intros [|n] H; simpl in *;
    try reflexivity; try lia.
  now rewrite IH by lia.
Qed.

Lemma index_cut_app c pre rest :
  all_chars (fun a => negb (Ascii.eqb a c)) pre = true ->
  index_cut (pre ++ String c rest) c = Some (pre, rest).
Proof.
  induction pre as [|a pre IH]; simpl.
  - now rewrite Ascii.eqb_refl.
  - intros H. apply andb_true_iff in H as [Ha Hp].
    apply negb_true_iff in Ha. now rewrite Ha, IH.
Qed.

(** *** Decimal numerals *)

Lemma string_of_uint_digits d :
  all_chars Stringm.is_digit (NilEmpty.string_of_uint d) = true.
Proof. induction d; simpl; auto. Qed.

Lemma string_of_uint_length d :
  String.length (NilEmpty.string_of_uint d) = Decimal.nb_digits d.
Proof. induction d; simpl; auto. Qed.

Lemma of_uint_acc_lower d : forall acc,
  (N.pos acc * 10 ^ N.of_nat (Decimal.nb_digits d)
   <= N.pos (Pos.of_uint_acc d acc))%N.
Proof.
  induction d; intros acc; cbn [Pos.of_uint_acc Decimal.nb_digits];
    try (rewrite N.pow_0_r; lia);
    rewrite Nat2N.inj_succ, N.pow_succ_r';
    (etransitivity; [|apply IHd]);
    set (X := (10 ^ N.of_nat (Decimal.nb_digits d))%N); nia.
Qed.

Lemma to_uint_head p :
  match Pos.to_uint p with
  | Decimal.Nil | Decimal.D0 _ => False
  | _ => True
  end.
Proof.
  pose proof (Unsigned.to_of (Pos.to_uint p)) as H.
  rewrite Unsigned.of_to in H. cbn [N.to_uint] in H.
  pose proof (Unsigned.to_uint_nonzero p) as Hz.
  unfold Decimal.unorm in H.
  pose proof (nzhead_nonzero (Pos.to_uint p)) as Hn.
  destruct (Decimal.nzhead (Pos.to_uint p)) eqn:E;
    rewrite H; try exact I.
  - apply Hz. exact H.
  - exfalso. apply (Hn u). reflexivity.
Qed.

Lemma of_uint_lower d :
  match d with Decimal.Nil | Decimal.D0 _ => False | _ => True end ->
  (10 ^ N.of_nat (Nat.pred (Decimal.nb_digits d)) <= N.of_uint d)%N.
Proof.
  destruct d; intros H; try contradiction;
    cbn [N.of_uint Pos.of_uint Decimal.nb_digits Nat.pred];
    (etransitivity; [|apply of_uint_acc_lower]);
    set (X := (10 ^ N.of_nat (Decimal.nb_digits d))%N); nia.
Qed.

Lemma to_uint_digits_bound n :
  (n < 4294967296)%N -> (1 <= Decimal.nb_digits (N.to_uint n) <= 10)%nat.
Proof.
  intros Hn. destruct n as [|p]; [cbn; lia|].
  cbn [N.to_uint].
  pose proof (to_uint_head p) as Hh.
  pose proof (of_uint_lower (Pos.to_uint p) Hh) as Hl.
  change (N.of_uint (Pos.to_uint p)) with (Pos.of_uint (Pos.to_uint p)) in Hl.
  rewrite Unsigned.of_to in Hl.
  destruct (Decimal.nb_digits (Pos.to_uint p)) as [|k] eqn:E.
  - apply nb_digits_0 in E. rewrite E in Hh. contradiction.
  - cbn [Nat.pred] in Hl. split; [lia|].
    destruct (Nat.le_gt_cases k 9) as [|Hk]; [lia|].
    exfalso.
    assert (10 ^ 10 <= 10 ^ N.of_nat k)%N by (apply N.pow_le_mono_r; lia).
    change (10 ^ 10)%N with 10000000000%N in *. lia.
Qed.

Lemma u32_to_str_digits n :
  all_chars Stringm.is_digit (u32_to_str n) = true.
Proof. apply string_of_uint_digits. Qed.

Lemma u32_to_str_length n :
  U32.in_range n -> (1 <= String.length (u32_to_str n) <= 10)%nat.
Proof.
  intros Hn. unfold u32_to_str. rewrite string_of_uint_length.
  apply to_uint_digits_bound. unfold U32.in_range, U32.modulus in Hn. lia.
Qed.

Lemma magnitude_u32_to_str n :
  U32.in_range n -> Stringm.magnitude (u32_to_str n) = Some n.
Proof.
  intros Hn. pose proof (u32_to_str_length n Hn) as Hl.
  unfold Stringm.magnitude.
  destruct (u32_to_str n) eqn:E; [simpl in Hl; lia|].
  rewrite <- E. unfold u32_to_str.
  rewrite NilEmpty.usu, DecimalN.Unsigned.of_to.
  f_equal. apply Z2N.id. apply Hn.
Qed.

(** *** The helpers on what [time_system_to_str] writes *)

Lemma span_digits_app ds rest :
  all_chars Stringm.is_digit ds = true -> starts_without_digit rest ->
  Stringm.span_digits (ds ++ rest) = (ds, rest).
Proof.
  intros Hd Hr. induction ds as [|c ds IH]; simpl in *.
  - destruct rest as [|c rest]; [reflexivity|].
    simpl in Hr. simpl. now rewrite Hr.
  - apply andb_true_iff in Hd as [Hc Hd].
    now rewrite Hc, (IH Hd).
Qed.

Lemma ltrim_digit_first s :
  all_chars (fun c => negb (Stringm.is_space c)) s = true ->
  Stringm.ltrim s = s.
Proof.
  destruct s as [|c s]; simpl; [reflexivity|].
  intros H. apply andb_true_iff in H as [Hc _].
  apply negb_true_iff in Hc. now rewrite Hc.
Qed.

Lemma rtrim_no_space s :
  all_chars (fun c => negb (Stringm.is_space c)) s = true ->
  Stringm.rtrim s = s.
Proof.
  induction s as [|c s IH]; simpl; [reflexivity|].
  intros H. apply andb_true_iff in H as [Hc Hs].
  apply negb_true_iff in Hc. rewrite (IH Hs), Hc.
  destruct s; reflexivity.
Qed.

Lemma trim_no_space s :
  all_chars (fun c => negb (Stringm.is_space c)) s = true ->
  Stringm.trim s = s.
Proof.
  intros H. unfold Stringm.trim.
  rewrite (ltrim_digit_first s H). apply rtrim_no_space. exact H.
Qed.

Lemma digit_no_space c :
  Stringm.is_digit c = true -> negb (Stringm.is_space c) = true.
Proof.
  unfold Stringm.is_digit, Stringm.is_space.
  generalize (nat_of_ascii c). intros n H.
  apply andb_true_iff in H as [H1 H2].
  apply Nat.leb_le in H1. apply negb_true_iff, orb_false_iff. split.
  - apply Nat.eqb_neq. lia.
  - apply andb_false_iff. right. apply Nat.leb_gt. lia.
Qed.

Lemma unit_letter_cases c :
  is_unit_letter c = true -> (c = "m" \/ c = "s" \/ c = "h")%char.
Proof.
  unfold is_unit_letter. intros H.
  apply orb_true_iff in H as [H | H]; [apply orb_true_iff in H as [H | H]|];
    apply Ascii.eqb_eq in H; auto.
Qed.

Lemma letter_no_space c :
  is_unit_letter c = true -> negb (Stringm.is_space c) = true.
Proof.
  intros H. destruct (unit_letter_cases c H) as [-> | [-> | ->]]; reflexivity.
Qed.

(** *** The unit [time_system_to_str] chooses *)

Lemma largest_unit_spec t :
  0 <= t ->
  exists f,
    Stringm.unit_factor (snd (largest_unit t)) = Some f /\
    fst (largest_unit t) * f = t /\
    0 <= fst (largest_unit t) <= t /\
    all_chars is_unit_letter (snd (largest_unit t)) = true /\
    starts_without_digit (snd (largest_unit t)) /\
    (String.length (snd (largest_unit t)) <= 2)%nat.
Proof.
  intros Ht. unfold largest_unit.
  destruct (Z.leb_spec 1000 t); cbn [andb];
    [destruct (Z.eqb_spec (t mod 1000) 0)|]; cbn [andb].
  - destruct (Z.leb_spec 60 (t / 1000)); cbn [andb];
      [destruct (Z.eqb_spec ((t / 1000) mod 60) 0)|]; cbn [andb].
    + destruct (Z.leb_spec 60 (t / 1000 / 60)); cbn [andb];
        [destruct (Z.eqb_spec ((t / 1000 / 60) mod 60) 0)|]; cbn [andb fst snd].
      * exists 3600000. repeat split; try reflexivity;
          try (cbn; lia); Z.div_mod_to_equations; lia.
      * exists 60000. repeat split; try reflexivity;
          try (cbn; lia); Z.div_mod_to_equations; lia.
      * exists 60000. repeat split; try reflexivity;
          try (cbn; lia); Z.div_mod_to_equations; lia.
    + destruct (Z.leb_spec 60 (t / 1000)); cbn [andb];
        [destruct (Z.eqb_spec ((t / 1000) mod 60) 0)|]; cbn [andb fst snd];
        try contradiction; try lia;
        exists 1000; repeat split; try reflexivity;
          try (cbn; lia); Z.div_mod_to_equations; lia.
    + destruct (Z.leb_spec 60 (t / 1000)); cbn [andb fst snd]; try lia.
      exists 1000. repeat split; try reflexivity;
        try (cbn; lia); Z.div_mod_to_equations; lia.
  - destruct (Z.eqb_spec t 0); cbn [fst snd]; exists 1;
      repeat split; try reflexivity; try (cbn; lia); lia.
  - destruct (Z.eqb_spec t 0); cbn [fst snd]; exists 1;
      repeat split; try reflexivity; try (cbn; lia); lia.
Qed.

Lemma s32_wrap_small x : S32.in_range x -> S32.wrap x = x.
Proof.
  unfold S32.in_range, S32.wrap, S32.min, S32.max, U32.modulus. intros H.
  Z.div_mod_to_equations. lia.
Qed.

Lemma fits_s32_small x : 0 <= x <= S32.max -> Stringm.fits_s32 x = true.
Proof.
  unfold Stringm.fits_s32, S32.max. intros H.
  apply andb_true_iff. split; apply Z.leb_le; lia.
Qed.

Lemma parse_int_u32_to_str n :
  0 <= n <= S32.max -> Stringm.parse_int (u32_to_str n) = Some n.
Proof.
  intros Hn.
  assert (Hr : U32.in_range n)
    by (unfold U32.in_range, U32.modulus, S32.max in *; lia).
  unfold Stringm.parse_int.
  assert (Hd := u32_to_str_digits n).
  assert (E : match u32_to_str n with
              | String "-" s' => option_map Z.opp (Stringm.magnitude s')
              | _ => Stringm.magnitude (u32_to_str n)
              end = Stringm.magnitude (u32_to_str n)).
  { destruct (u32_to_str n) as [|c s]; [reflexivity|].
    simpl in Hd. apply andb_true_iff in Hd as [Hc _].
    destruct (Ascii.eqb_spec c "-") as [->|Hne]; [discriminate|].
    destruct c as [[] [] [] [] [] [] [] []]; try reflexivity;
      exfalso; apply Hne; reflexivity. }
  rewrite E, (magnitude_u32_to_str n Hr), (fits_s32_small n Hn).
  reflexivity.
Qed.

Lemma str_to_milliseconds_text t :
  0 <= t <= S32.max ->
  Stringm.str_to_milliseconds
    (u32_to_str (fst (largest_unit t)) ++ snd (largest_unit t)) = t.
Proof.
  intros Ht.
  destruct (largest_unit_spec t (proj1 Ht)) as (f & Hf & Hv & Hb & _ & Hs & _).
  assert (Hr : U32.in_range (fst (largest_unit t)))
    by (unfold U32.in_range, U32.modulus, S32.max in *; lia).
  unfold Stringm.str_to_milliseconds.
  rewrite (span_digits_app _ _ (u32_to_str_digits _) Hs).
  rewrite (magnitude_u32_to_str _ Hr), Hf, Hv, (fits_s32_small t Ht).
  reflexivity.
Qed.

(** *** Writing a time system and reading it back *)

Lemma time_system_text_shape ts :
  time_system_text ts
  = ((u32_to_str (fst (largest_unit (main_time ts)))
      ++ snd (largest_unit (main_time ts)))
     ++ String "+"
          (u32_to_str (byo_yomi_periods ts)
           ++ String "x"
                ((u32_to_str (fst (largest_unit (byo_yomi_time ts)))
                  ++ snd (largest_unit (byo_yomi_time ts)))
                 ++ String "/" (u32_to_str (byo_yomi_stones ts)))))%string.
Proof.
  unfold time_system_text.
  destruct (largest_unit (main_time ts)) as [v a].
  destruct (largest_unit (byo_yomi_time ts)) as [w b].
  cbn [fst snd]. rewrite !string_app_assoc. reflexivity.
Qed.

Lemma time_system_text_length ts :
  well_formed ts -> (String.length (time_system_text ts) <= 47)%nat.
Proof.
  intros Hwf. rewrite time_system_text_shape.
  destruct Hwf as [Hm _ Ht _ Hs _ Hp _].
  destruct (largest_unit_spec (main_time ts) (proj1 Hm))
    as (f & _ & _ & Hv & _ & _ & Ha).
  destruct (largest_unit_spec (byo_yomi_time ts) (proj1 Ht))
    as (g & _ & _ & Hw & _ & _ & Hb).
  assert (H1 := u32_to_str_length (fst (largest_unit (main_time ts)))).
  assert (H2 := u32_to_str_length (fst (largest_unit (byo_yomi_time ts)))).
  assert (H3 := u32_to_str_length _ Hs).
  assert (H4 := u32_to_str_length _ Hp).
  unfold U32.in_range in *.
  repeat (rewrite ?string_app_length; cbn [String.length]).
  lia.
Qed.

Lemma time_system_to_str_text ts :
  well_formed ts -> time_system_to_str ts = time_system_text ts.
Proof.
  intros Hwf. unfold time_system_to_str, snprintf64.
  apply substring_whole. pose proof (time_system_text_length ts Hwf). lia.
Qed.

Lemma digits_plain s :
  all_chars Stringm.is_digit s = true -> all_chars plain s = true.
Proof.
  apply all_chars_impl. intros c H. unfold plain. now rewrite H.
Qed.

Lemma letters_plain s :
  all_chars is_unit_letter s = true -> all_chars plain s = true.
Proof.
  apply all_chars_impl. intros c H. unfold plain. rewrite H.
  apply orb_true_r.
Qed.

Lemma plain_no_space c : plain c = true -> negb (Stringm.is_space c) = true.
Proof.
  unfold plain. intros H. apply orb_true_iff in H as [H | H].
  - now apply digit_no_space.
  - now apply letter_no_space.
Qed.

Lemma plain_not_char c x :
  plain x = false -> plain c = true -> negb (Ascii.eqb c x) = true.
Proof.
  intros Hx Hc.
  destruct (Ascii.eqb_spec c x) as [->|]; [congruence|reflexivity].
Qed.

Lemma unit_letters t :
  0 <= t -> all_chars is_unit_letter (snd (largest_unit t)) = true.
Proof.
  intros Ht. destruct (largest_unit_spec t Ht) as (f & _ & _ & _ & Hl & _).
  exact Hl.
Qed.

Ltac piecewise :=
  repeat (rewrite all_chars_app || cbn [all_chars]);
  repeat (apply andb_true_iff; split); try reflexivity.

Lemma time_system_text_no_space ts :
  well_formed ts ->
  all_chars (fun c => negb (Stringm.is_space c)) (time_system_text ts) = true.
Proof.
  intros [[Hm _] _ [Ht _] _ _ _ _ _]. rewrite time_system_text_shape.
  piecewise; apply (all_chars_impl plain _ _ plain_no_space);
    first [apply digits_plain, u32_to_str_digits
          | apply letters_plain, unit_letters; assumption].
Qed.

Lemma duration_without c t :
  plain c = false -> 0 <= t ->
  all_chars (fun a => negb (Ascii.eqb a c))
    (u32_to_str (fst (largest_unit t)) ++ snd (largest_unit t)) = true.
Proof.
  intros Hc Ht.
  piecewise;
    apply (all_chars_impl plain _ _ (fun a => plain_not_char a c Hc));
    first [apply digits_plain, u32_to_str_digits
          | apply letters_plain, unit_letters; assumption].
Qed.

Lemma number_without c n :
  plain c = false ->
  all_chars (fun a => negb (Ascii.eqb a c)) (u32_to_str n) = true.
Proof.
  intros Hc.
  apply (all_chars_impl plain _ _ (fun a => plain_not_char a c Hc)).
  apply digits_plain, u32_to_str_digits.
Qed.

(** C4 (amended).  For every time system whose main time, byo-yomi time and
    periods are below 2^31, whose stones are between 1 and 2^31 - 1 and whose
    text has at least 9 characters, [str_to_time_system] (with the helpers
    of [Stringm]) accepts the text [time_system_to_str] writes, stores the
    four configured values, and writing the result gives the same text
    again.  Reading ["300s+5x30s/1"] yields main time 300000, 5 periods,
    byo-yomi time 30000 and 1 stone, and writing that value gives
    ["5m+5x30s/1"]: 300000 ms are exactly 5 minutes. *)
Theorem format_parse_roundtrip ts dst :
  well_formed ts ->
  main_time ts <= S32.max ->
  byo_yomi_time ts <= S32.max ->
  byo_yomi_periods ts <= S32.max ->
  1 <= byo_yomi_stones ts <= S32.max ->
  (9 <= String.length (time_system_to_str ts))%nat ->
  parse_time_system (time_system_to_str ts) dst
  = (true,
     store_configuration dst (main_time ts) (byo_yomi_stones ts)
       (byo_yomi_time ts) (byo_yomi_periods ts)) /\
  time_system_to_str (snd (parse_time_system (time_system_to_str ts) dst))
  = time_system_to_str ts /\
  parse_time_system "300s+5x30s/1" dst
  = (true, store_configuration dst 300000 1 30000 5) /\
  time_system_to_str (store_configuration dst 300000 1 30000 5)
  = "5m+5x30s/1"%string.
Proof.
  intros Hwf Hm Ht Hp Hs Hlen.
  assert (Hparse :
    parse_time_system (time_system_to_str ts) dst
    = (true,
       store_configuration dst (main_time ts) (byo_yomi_stones ts)
         (byo_yomi_time ts) (byo_yomi_periods ts))).
  { rewrite (time_system_to_str_text ts Hwf) in *.
    unfold parse_time_system, str_to_time_system.
    replace (String.length (time_system_text ts) <? 9)%nat with false
      by (symmetry; apply Nat.ltb_ge; exact Hlen).
    cbn [negb].
    rewrite (trim_no_space _ (time_system_text_no_space ts Hwf)).
    replace (String.length (time_system_text ts) <? 9)%nat with false
      by (symmetry; apply Nat.ltb_ge; exact Hlen).
    destruct Hwf as [[Hm0 _] _ [Ht0 _] _ _ _ [Hp0 _] _].
    rewrite time_system_text_shape.
    rewrite (index_cut_app "+" _ _
               (duration_without "+" _ eq_refl Hm0)).
    rewrite (str_to_milliseconds_text _ (conj Hm0 Hm)).
    rewrite (s32_wrap_small (main_time ts))
      by (unfold S32.in_range, S32.min, S32.max in *; lia).
    replace (main_time ts <? 0) with false by (symmetry; apply Z.ltb_ge; lia).
    rewrite (index_cut_app "x" _ _ (number_without "x" _ eq_refl)).
    rewrite (parse_int_u32_to_str _ (conj Hp0 Hp)). cbn [option_map].
    rewrite (s32_wrap_small (byo_yomi_periods ts))
      by (unfold S32.in_range, S32.min, S32.max in *; lia).
    replace (byo_yomi_periods ts <? 0) with false
      by (symmetry; apply Z.ltb_ge; lia).
    rewrite (index_cut_app "/" _ _
               (duration_without "/" _ eq_refl Ht0)).
    rewrite (str_to_milliseconds_text _ (conj Ht0 Ht)).
    rewrite (s32_wrap_small (byo_yomi_time ts))
      by (unfold S32.in_range, S32.min, S32.max in *; lia).
    replace (byo_yomi_time ts <? 0) with false
      by (symmetry; apply Z.ltb_ge; lia).
    rewrite (parse_int_u32_to_str (byo_yomi_stones ts))
      by (unfold S32.max in *; lia).
    cbn [option_map].
    rewrite (s32_wrap_small (byo_yomi_stones ts))
      by (unfold S32.in_range, S32.min, S32.max in *; lia).
    replace (byo_yomi_stones ts <? 1) with false
      by (symmetry; apply Z.ltb_ge; lia).
    reflexivity. }
  split; [exact Hparse|].
  split; [rewrite Hparse; reflexivity|].
  split; reflexivity.
Qed.

Lemma format_parse_roundtrip_witness :
  parse_time_system (time_system_to_str (set_time_system 300000 30000 1 5))
    (set_sudden_death 7)
  = (true,
     store_configuration (set_sudden_death 7)
       (main_time (set_time_system 300000 30000 1 5))
       (byo_yomi_stones (set_time_system 300000 30000 1 5))
       (byo_yomi_time (set_time_system 300000 30000 1 5))
       (byo_yomi_periods (set_time_system 300000 30000 1 5))) /\
  time_system_to_str
    (snd (parse_time_system
            (time_system_to_str (set_time_system 300000 30000 1 5))
            (set_sudden_death 7)))
  = time_system_to_str (set_time_system 300000 30000 1 5) /\
  parse_time_system "300s+5x30s/1" (set_sudden_death 7)
  = (true, store_configuration (set_sudden_death 7) 300000 1 30000 5) /\
  time_system_to_str (store_configuration (set_sudden_death 7) 300000 1 30000 5)
  = "5m+5x30s/1"%string.
Proof.
  apply (format_parse_roundtrip (set_time_system 300000 30000 1 5)
           (set_sudden_death 7)).
  - constructor; cbn; unfold U32.in_range, U32.modulus; lia.
  - cbn; unfold S32.max; lia.
  - cbn; unfold S32.max; lia.
  - cbn; unfold S32.max; lia.
  - cbn; unfold S32.max; lia.
  - vm_compute. lia.
Defined.

(** C4 as stated fails.  The value read from ["300s+5x30s/1"] is written as
    ["5m+5x30s/1"]; and three texts [time_system_to_str] writes are not read
    back: ["0+1x1s/1"] is shorter than 9 characters, ["10m+0x0/0"] (a
    sudden-death clock) has no stone, and the main time of
    ["50000m+1x1s/1"] does not fit the signed 32-bit result of the
    helpers. *)
Lemma format_parse_roundtrip_counterexample :
  time_system_to_str
    (snd (parse_time_system "300s+5x30s/1" (set_sudden_death 0)))
  = "5m+5x30s/1"%string /\
  (canonical "0+1x1s/1" /\
   parse_time_system "0+1x1s/1" (set_sudden_death 0)
   = (false, set_sudden_death 0)) /\
  (canonical "10m+0x0/0" /\
   parse_time_system "10m+0x0/0" (set_sudden_death 0)
   = (false, set_sudden_death 0)) /\
  (canonical "50000m+1x1s/1" /\
   parse_time_system "50000m+1x1s/1" (set_sudden_death 0)
   = (false, set_sudden_death 0)).
Proof.
  split; [reflexivity|].
  split; [split; [|reflexivity]|split; split; try reflexivity].
  - exists (set_time_system 0 1000 1 1).
    split; [constructor; cbn; unfold U32.in_range, U32.modulus; lia|].
    reflexivity.
  - exists (set_sudden_death 600000).
    split; [constructor; cbn; unfold U32.in_range, U32.modulus; lia|].
    reflexivity.
  - exists (set_time_system 3000000000 1000 1 1).
    split; [constructor; cbn; unfold U32.in_range, U32.modulus; lia|].
    reflexivity.
Qed.

(** *** Reading a time system, whatever the helpers do *)

Section Parse.

Variable trim : string -> string.
Variable str_to_milliseconds : string -> Z.
Variable parse_int : string -> option Z.

Let parse := str_to_time_system trim str_to_milliseconds parse_int.

(** The shape of every outcome of [str_to_time_system]: a failure hands back
    [dst], a success stores four values read from the text, of which the
    main time, the byo-yomi time and the periods are not negative and the
    stones are at least one. *)
Lemma str_to_time_system_outcome malloc_ok src dst :
  parse malloc_ok src dst = (false, dst) \/
  exists m s t p,
    parse malloc_ok src dst = (true, store_configuration dst m s t p) /\
    0 <= m <= S32.max /\ 1 <= s <= S32.max /\
    0 <= t <= S32.max /\ 0 <= p <= S32.max.
Proof.
  assert (Hw : forall x, S32.min <= S32.wrap x <= S32.max).
  { intros x. unfold S32.wrap, S32.min, S32.max, U32.modulus.
    Z.div_mod_to_equations. lia. }
  unfold parse, str_to_time_system.
  destruct src as [src|]; [|now left].
  destruct (String.length src <? 9)%nat; [now left|].
  destruct malloc_ok; cbn [negb]; [|now left].
  destruct (String.length (trim src) <? 9)%nat; [now left|].
  destruct (index_cut (trim src) "+") as [[s1 r1]|]; [|now left].
  destruct (Z.ltb_spec (S32.wrap (str_to_milliseconds s1)) 0); [now left|].
  destruct (index_cut r1 "x") as [[s2 r2]|]; [|now left].
  destruct (parse_int s2) as [t2|]; cbn [option_map]; [|now left].
  destruct (Z.ltb_spec (S32.wrap t2) 0); [now left|].
  destruct (index_cut r2 "/") as [[s3 r3]|]; [|now left].
  destruct (Z.ltb_spec (S32.wrap (str_to_milliseconds s3)) 0); [now left|].
  destruct (parse_int r3) as [t4|]; cbn [option_map]; [|now left].
  destruct (Z.ltb_spec (S32.wrap t4) 1); [now left|].
  right. do 4 eexists. split; [reflexivity|].
  pose proof (Hw (str_to_milliseconds s1)).
  pose proof (Hw t2). pose proof (Hw (str_to_milliseconds s3)).
  pose proof (Hw t4). lia.
Qed.

(** The causes of rejection that precede the helpers' verdicts. *)
Lemma rejects_null malloc_ok dst :
  parse malloc_ok None dst = (false, dst).
Proof. reflexivity. Qed.

Lemma rejects_short malloc_ok src dst :
  (String.length src < 9)%nat ->
  parse malloc_ok (Some src) dst = (false, dst).
Proof.
  intros H. unfold parse, str_to_time_system.
  apply Nat.ltb_lt in H. now rewrite H.
Qed.

Lemma rejects_short_after_trim malloc_ok src dst :
  (String.length (trim src) < 9)%nat ->
  parse malloc_ok (Some src) dst = (false, dst).
Proof.
  intros H. unfold parse, str_to_time_system.
  apply Nat.ltb_lt in H. rewrite H.
  destruct (String.length src <? 9)%nat, malloc_ok; reflexivity.
Qed.

Lemma rejects_without_plus malloc_ok src dst :
  index_cut (trim src) "+" = None ->
  parse malloc_ok (Some src) dst = (false, dst).
Proof.
  intros H. unfold parse, str_to_time_system. rewrite H.
  destruct (String.length src <? 9)%nat, malloc_ok,
    (String.length (trim src) <? 9)%nat; reflexivity.
Qed.

Lemma rejects_malformed_main_time malloc_ok src s rest dst :
  index_cut (trim src) "+" = Some (s, rest) ->
  S32.wrap (str_to_milliseconds s) < 0 ->
  parse malloc_ok (Some src) dst = (false, dst).
Proof.
  intros H Hneg. unfold parse, str_to_time_system. rewrite H.
  apply Z.ltb_lt in Hneg. rewrite Hneg.
  destruct (String.length src <? 9)%nat, malloc_ok,
    (String.length (trim src) <? 9)%nat; reflexivity.
Qed.

(** C7.  Whenever [str_to_time_system] returns [false], whatever made it
    reject the text, [*dst] is what it was before the call. *)
Theorem parse_failure_leaves_destination malloc_ok src dst :
  fst (parse malloc_ok src dst) = false ->
  parse malloc_ok src dst = (false, dst).
Proof.
  destruct (str_to_time_system_outcome malloc_ok src dst)
    as [H | (m & s & t & p & H & _)]; rewrite H; [reflexivity|discriminate].
Qed.

(** A branch that returns [false] has nothing to show for a success. *)
Ltac rejected :=
  let H := fresh in intros H; cbn in H; discriminate H.

(** C9.  When [str_to_time_system] returns [true] it has assigned
    [main_time], [byo_yomi_periods], [byo_yomi_time] and [byo_yomi_stones],
    each with the value the helpers read from its piece of the text (taken
    through the [s32] variable [t]), and nothing else: the four remaining
    budgets, [can_timeout] and [timed_out] are those of [*dst] before the
    call. *)
Theorem parse_success_frame malloc_ok src dst :
  fst (parse malloc_ok src dst) = true ->
  let r := snd (parse malloc_ok src dst) in
  (exists text main rest1 periods rest2 byo stones p s,
     src = Some text /\
     index_cut (trim text) "+" = Some (main, rest1) /\
     index_cut rest1 "x" = Some (periods, rest2) /\
     index_cut rest2 "/" = Some (byo, stones) /\
     parse_int periods = Some p /\
     parse_int stones = Some s /\
     main_time r = S32.wrap (str_to_milliseconds main) /\
     byo_yomi_periods r = S32.wrap p /\
     byo_yomi_time r = S32.wrap (str_to_milliseconds byo) /\
     byo_yomi_stones r = S32.wrap s) /\
  can_timeout r = can_timeout dst /\
  timed_out r = timed_out dst /\
  main_time_remaining r = main_time_remaining dst /\
  byo_yomi_time_remaining r = byo_yomi_time_remaining dst /\
  byo_yomi_stones_remaining r = byo_yomi_stones_remaining dst /\
  byo_yomi_periods_remaining r = byo_yomi_periods_remaining dst.
Proof.
  unfold parse, str_to_time_system.
  destruct src as [src|]; [|rejected].
  destruct (String.length src <? 9)%nat; [rejected|].
  destruct malloc_ok; cbn [negb]; [|rejected].
  destruct (String.length (trim src) <? 9)%nat; [rejected|].
  destruct (index_cut (trim src) "+") as [[s1 r1]|] eqn:E1; [|rejected].
  destruct (S32.wrap (str_to_milliseconds s1) <? 0); [rejected|].
  destruct (index_cut r1 "x") as [[s2 r2]|] eqn:E2; [|rejected].
  destruct (parse_int s2) as [t2|] eqn:P2; cbn [option_map]; [|rejected].
  destruct (S32.wrap t2 <? 0); [rejected|].
  destruct (index_cut r2 "/") as [[s3 r3]|] eqn:E3; [|rejected].
  destruct (S32.wrap (str_to_milliseconds s3) <? 0); [rejected|].
  destruct (parse_int r3) as [t4|] eqn:P4; cbn [option_map]; [|rejected].
  destruct (S32.wrap t4 <? 1); [rejected|].
  intros _. cbn [snd]. split.
  - exists src, s1, r1, s2, r2, s3, r3, t2, t4.
    unfold store_configuration.
    cbn [main_time byo_yomi_periods byo_yomi_time byo_yomi_stones].
    repeat (split; [first [reflexivity | assumption]|]). reflexivity.
  - unfold store_configuration. cbn. repeat split.
Qed.

(** C6 (amended).  [str_to_time_system] succeeds only with a stone count of
    at least one and a period count that is not negative; zero periods are
    accepted. *)
Theorem parse_success_counts malloc_ok src dst :
  fst (parse malloc_ok src dst) = true ->
  0 <= byo_yomi_periods (snd (parse malloc_ok src dst)) /\
  1 <= byo_yomi_stones (snd (parse malloc_ok src dst)).
Proof.
  destruct (str_to_time_system_outcome malloc_ok src dst)
    as [H | (m & s & t & p & H & Hm & Hs & Ht & Hp)]; rewrite H;
    [discriminate|].
  intros _. cbn. lia.
Qed.

End Parse.

Lemma parse_failure_leaves_destination_witness :
  str_to_time_system Stringm.trim Stringm.str_to_milliseconds
    Stringm.parse_int true (Some "300s+5x30s/0"%string) (set_sudden_death 7)
  = (false, set_sudden_death 7).
Proof.
  apply (parse_failure_leaves_destination Stringm.trim
           Stringm.str_to_milliseconds Stringm.parse_int true
           (Some "300s+5x30s/0"%string) (set_sudden_death 7)).
  reflexivity.
Defined.

Lemma parse_success_frame_witness :
  let dst := set_sudden_death 7 in
  let r := snd (str_to_time_system Stringm.trim Stringm.str_to_milliseconds
                  Stringm.parse_int true (Some "300s+5x30s/1"%string) dst) in
  (exists text main rest1 periods rest2 byo stones p s,
     Some "300s+5x30s/1"%string = Some text /\
     index_cut (Stringm.trim text) "+" = Some (main, rest1) /\
     index_cut rest1 "x" = Some (periods, rest2) /\
     index_cut rest2 "/" = Some (byo, stones) /\
     Stringm.parse_int periods = Some p /\
     Stringm.parse_int stones = Some s /\
     main_time r = S32.wrap (Stringm.str_to_milliseconds main) /\
     byo_yomi_periods r = S32.wrap p /\
     byo_yomi_time r = S32.wrap (Stringm.str_to_milliseconds byo) /\
     byo_yomi_stones r = S32.wrap s) /\
  can_timeout r = can_timeout dst /\
  timed_out r = timed_out dst /\
  main_time_remaining r = main_time_remaining dst /\
  byo_yomi_time_remaining r = byo_yomi_time_remaining dst /\
  byo_yomi_stones_remaining r = byo_yomi_stones_remaining dst /\
  byo_yomi_periods_remaining r = byo_yomi_periods_remaining dst.
Proof.
  apply (parse_success_frame Stringm.trim Stringm.str_to_milliseconds
           Stringm.parse_int true (Some "300s+5x30s/1"%string)
           (set_sudden_death 7)).
  reflexivity.
Defined.

Lemma parse_success_counts_witness :
  0 <= byo_yomi_periods
         (snd (str_to_time_system Stringm.trim Stringm.str_to_milliseconds
                 Stringm.parse_int true (Some "0+0x30s/1"%string)
                 (set_sudden_death 7))) /\
  1 <= byo_yomi_stones
         (snd (str_to_time_system Stringm.trim Stringm.str_to_milliseconds
                 Stringm.parse_int true (Some "0+0x30s/1"%string)
                 (set_sudden_death 7))).
Proof.
  apply (parse_success_counts Stringm.trim Stringm.str_to_milliseconds
           Stringm.parse_int true (Some "0+0x30s/1"%string)
           (set_sudden_death 7)).
  reflexivity.
Defined.

(** C6 as stated fails: a text with zero periods is accepted. *)
Lemma parse_success_counts_counterexample :
  parse_time_system "0+0x30s/1" (set_sudden_death 7)
  = (true, store_configuration (set_sudden_death 7) 0 1 30000 0) /\
  byo_yomi_periods (store_configuration (set_sudden_death 7) 0 1 30000 0) = 0.
Proof. split; reflexivity. Qed.

(** ** Doubles *)

(** *** Digits *)

Ltac dbl :=
  unfold fexp, emin, Double.prec, Double.emax in *.

Lemma digits2_pos_size p : digits2_pos p = Pos.size p.
Proof. induction p; simpl; congruence. Qed.

Lemma Zdigits2_log2 m : 0 < m -> Zdigits2 m = Z.log2 m + 1.
Proof.
  destruct m as [|p|p]; try lia. intros _. simpl Zdigits2.
  rewrite digits2_pos_size. destruct p; simpl; lia.
Qed.

Lemma Zdigits2_pos m : 0 < m -> 0 < Zdigits2 m.
Proof.
  intros H. rewrite Zdigits2_log2 by assumption.
  pose proof (Z.log2_nonneg m). lia.
Qed.

Lemma Zdigits2_bounds m :
  0 < m -> 2 ^ (Zdigits2 m - 1) <= m < 2 ^ Zdigits2 m.
Proof.
  intros H. rewrite Zdigits2_log2 by assumption.
  replace (Z.log2 m + 1 - 1) with (Z.log2 m) by lia.
  apply Z.log2_spec, H.
Qed.

Lemma Zdigits2_div_pow2 m n :
  0 <= m -> 0 <= n -> Zdigits2 (m / 2 ^ n) = Z.max 0 (Zdigits2 m - n).
Proof.
  intros Hm Hn.
  assert (Hp : 0 < 2 ^ n) by (apply Z.pow_pos_nonneg; lia).
  destruct (Z.eq_dec m 0) as [-> | Hm0].
  { rewrite Z.div_0_l by lia. simpl. lia. }
  assert (Hpos : 0 < m) by lia.
  rewrite (Zdigits2_log2 m Hpos).
  destruct (Z.lt_ge_cases m (2 ^ n)) as [Hlt | Hge].
  - rewrite Z.div_small by lia. simpl.
    apply Z.log2_lt_pow2 in Hlt; lia.
  - assert (Hq : 0 < m / 2 ^ n).
    { apply Z.div_str_pos. lia. }
    rewrite (Zdigits2_log2 _ Hq).
    rewrite <- Z.shiftr_div_pow2 by lia.
    rewrite Z.log2_shiftr by lia.
    apply Z.log2_le_pow2 in Hge; lia.
Qed.

Lemma Zdigits2_succ m :
  0 <= m ->
  Zdigits2 (m + 1) = Zdigits2 m \/ Zdigits2 (m + 1) = Zdigits2 m + 1.
Proof.
  intros Hm. destruct (Z.eq_dec m 0) as [-> | Hm0]; [now right|].
  rewrite !Zdigits2_log2 by lia.
  destruct (Z.log2_succ_or m) as [H | H]; unfold Z.succ in H; rewrite H; lia.
Qed.

Lemma Zdigits2_mul a b :
  0 < a -> 0 < b -> Zdigits2 a + Zdigits2 b - 1 <= Zdigits2 (a * b).
Proof.
  intros Ha Hb. rewrite !Zdigits2_log2 by nia.
  pose proof (Z.log2_mul_below a b Ha Hb). lia.
Qed.

Lemma Zdigits2_mul_pow2 a n :
  0 < a -> 0 <= n -> Zdigits2 (a * 2 ^ n) = Zdigits2 a + n.
Proof.
  intros Ha Hn.
  assert (0 < 2 ^ n) by (apply Z.pow_pos_nonneg; lia).
  rewrite !Zdigits2_log2 by nia.
  rewrite Z.log2_mul_pow2 by lia. lia.
Qed.

Lemma Zdigits2_div a b :
  0 < a -> 0 < b -> Zdigits2 a - Zdigits2 b <= Zdigits2 (a / b).
Proof.
  intros Ha Hb.
  assert (Hq : 0 <= a / b) by (apply Z.div_pos; lia).
  destruct (Z.eq_dec (a / b) 0) as [E | E].
  - rewrite E. simpl. apply Z.div_small_iff in E; [|lia].
    assert (Hlt : a < b) by lia.
    rewrite !Zdigits2_log2 by lia.
    pose proof (Z.log2_le_mono a b). lia.
  - rewrite !Zdigits2_log2 by lia.
    set (k := Z.log2 a - Z.log2 b - 1).
    destruct (Z.lt_ge_cases k 0) as [Hk | Hk].
    + pose proof (Z.log2_nonneg (a / b)). lia.
    + enough (k <= Z.log2 (a / b)) by lia.
      apply Z.log2_le_pow2; [lia|].
      apply Z.div_le_lower_bound; [lia|].
      pose proof (Z.log2_spec a Ha) as [Hla _].
      pose proof (Z.log2_spec b Hb) as [_ Hub].
      assert (Hpk : 0 < 2 ^ k) by (apply Z.pow_pos_nonneg; lia).
      assert (E2 : 2 ^ Z.log2 a = 2 ^ k * 2 ^ Z.succ (Z.log2 b)).
      { rewrite <- Z.pow_add_r by (pose proof (Z.log2_nonneg b); lia).
        f_equal. lia. }
      nia.
Qed.

(** *** Rounding *)

Lemma shr_1_m r : 0 <= shr_m r -> shr_m (shr_1 r) = shr_m r / 2.
Proof.
  destruct r as [m rr s]. cbn [shr_m]. intros Hm.
  rewrite <- Z.div2_div.
  destruct m as [|[p|p|]|p]; try lia; reflexivity.
Qed.

Lemma iter_pos_shr_m p : forall r,
  0 <= shr_m r ->
  shr_m (iter_pos shr_1 p r) = shr_m r / 2 ^ Z.pos p.
Proof.
  assert (Hnn : forall r, 0 <= shr_m r -> 0 <= shr_m (shr_1 r)).
  { intros r H. rewrite shr_1_m by assumption. apply Z.div_pos; lia. }
  induction p as [p IH | p IH |]; intros r Hr; cbn [iter_pos].
  - assert (H1 := Hnn r Hr).
    assert (Hp : 0 < 2 ^ Z.pos p) by (apply Z.pow_pos_nonneg; lia).
    assert (H2 : 0 <= shr_m (iter_pos shr_1 p (shr_1 r))).
    { rewrite IH by assumption. apply Z.div_pos; lia. }
    rewrite IH, IH, shr_1_m by assumption.
    rewrite !Z.div_div by lia. f_equal.
    replace (Z.pos p~1) with (1 + Z.pos p + Z.pos p) by lia.
    rewrite !Z.pow_add_r by lia. lia.
  - assert (Hp : 0 < 2 ^ Z.pos p) by (apply Z.pow_pos_nonneg; lia).
    assert (H2 : 0 <= shr_m (iter_pos shr_1 p r)).
    { rewrite IH by assumption. apply Z.div_pos; lia. }
    rewrite IH, IH by assumption.
    rewrite !Z.div_div by lia. f_equal.
    replace (Z.pos p~0) with (Z.pos p + Z.pos p) by lia.
    rewrite !Z.pow_add_r by lia. lia.
  - rewrite shr_1_m by assumption. reflexivity.
Qed.

(** What [shr_fexp] does to a mantissa that is not negative: it drops the
    bits below the exponent the format gives the value. *)
Lemma shr_fexp_spec m e l r e2 :
  0 <= m ->
  shr_fexp Double.prec Double.emax m e l = (r, e2) ->
  let n := Z.max 0 (fexp Double.prec Double.emax (Zdigits2 m + e) - e) in
  shr_m r = m / 2 ^ n /\ e2 = e + n.
Proof.
  intros Hm. unfold shr_fexp, shr.
  assert (Hr : shr_m (shr_record_of_loc m l) = m)
    by (destruct l as [|[]]; reflexivity).
  destruct (fexp Double.prec Double.emax (Zdigits2 m + e) - e) as [|p|p];
    intros H; injection H as <- <-; cbv zeta.
  - rewrite Hr. cbn. rewrite Z.div_1_r. lia.
  - rewrite iter_pos_shr_m by lia. rewrite Hr.
    replace (Z.max 0 (Z.pos p)) with (Z.pos p) by lia. lia.
  - rewrite Hr. replace (Z.max 0 (Z.neg p)) with 0 by lia.
    cbn. rewrite Z.div_1_r. lia.
Qed.

Lemma round_nearest_even_cases m l :
  round_nearest_even m l = m \/ round_nearest_even m l = m + 1.
Proof.
  unfold round_nearest_even.
  destruct l as [|[]]; auto. destruct (Z.even m); auto.
Qed.

(** The shape of a rounded value.  [e <= fexp (digits m + e)] says that the
    mantissa handed to the rounding has at least the bits of the result. *)
Lemma binary_round_aux_shape s m e l :
  0 <= m ->
  e <= fexp Double.prec Double.emax (Zdigits2 m + e) ->
  match binary_round_aux Double.prec Double.emax s m e l with
  | S754_zero s' => s' = s /\ (0 < m -> e < -1074)
  | S754_infinity s' => s' = s
  | S754_finite s' m' e' =>
      s' = s /\ bounded Double.prec Double.emax m' e' = true
  | S754_nan => False
  end.
Proof.
  intros Hm He. unfold binary_round_aux.
  destruct (shr_fexp Double.prec Double.emax m e l) as [r1 e1] eqn:E1.
  destruct (shr_fexp_spec m e l r1 e1 Hm E1) as [Hr1 He1].
  set (m1 := round_nearest_even (shr_m r1) (loc_of_shr_record r1)).
  destruct (shr_fexp Double.prec Double.emax m1 e1 loc_Exact)
    as [r2 e2] eqn:E2.
  set (n1 := Z.max 0 (fexp Double.prec Double.emax (Zdigits2 m + e) - e))
    in *.
  assert (Hn1 : 0 <= n1) by (subst n1; lia).
  assert (Hp1 : 0 < 2 ^ n1) by (apply Z.pow_pos_nonneg; lia).
  assert (Hm' : 0 <= shr_m r1) by (rewrite Hr1; apply Z.div_pos; lia).
  assert (Hd' : Zdigits2 (shr_m r1) = Z.max 0 (Zdigits2 m - n1))
    by (rewrite Hr1; apply Zdigits2_div_pow2; lia).
  assert (Hm1 : 0 <= m1).
  { subst m1. destruct (round_nearest_even_cases (shr_m r1)
                          (loc_of_shr_record r1)) as [-> | ->]; lia. }
  assert (Hd1 : Zdigits2 m1 = Zdigits2 (shr_m r1)
                \/ Zdigits2 m1 = Zdigits2 (shr_m r1) + 1).
  { subst m1. destruct (round_nearest_even_cases (shr_m r1)
                          (loc_of_shr_record r1)) as [-> | ->];
      [now left | apply Zdigits2_succ; lia]. }
  assert (Hm1' : m1 = shr_m r1 \/ m1 = shr_m r1 + 1)
    by (apply round_nearest_even_cases).
  destruct (shr_fexp_spec m1 e1 loc_Exact r2 e2 Hm1 E2) as [Hr2 He2].
  set (n2 := Z.max 0 (fexp Double.prec Double.emax (Zdigits2 m1 + e1) - e1))
    in *.
  assert (Hn2 : 0 <= n2) by (subst n2; lia).
  assert (Hp2 : 0 < 2 ^ n2) by (apply Z.pow_pos_nonneg; lia).
  assert (Hd2 : Zdigits2 (shr_m r2) = Z.max 0 (Zdigits2 m1 - n2))
    by (rewrite Hr2; apply Zdigits2_div_pow2; lia).
  assert (Hm2 : 0 <= shr_m r2) by (rewrite Hr2; apply Z.div_pos; lia).
  assert (Hz : forall x, 0 <= x -> (0 < x <-> 0 < Zdigits2 x)).
  { intros x Hx. split; intros H.
    - now apply Zdigits2_pos.
    - destruct (Z.eq_dec x 0) as [-> | ]; [simpl in H; lia | lia]. }
  pose proof (Hz m Hm) as Hzm. pose proof (Hz _ Hm') as Hzm'.
  pose proof (Hz _ Hm1) as Hzm1. pose proof (Hz _ Hm2) as Hzm2.
  assert (Hdm : 0 <= Zdigits2 m).
  { destruct (Z.eq_dec m 0) as [-> | ]; [simpl; lia|].
    apply Z.lt_le_incl, Zdigits2_pos. lia. }
  destruct (shr_m r2) as [|p|p] eqn:Ep; [| |lia].
  - split; [reflexivity|]. intros Hpos. dbl. lia.
  - destruct (e2 <=? Double.emax - Double.prec) eqn:Ele; [|reflexivity].
    split; [reflexivity|].
    unfold bounded, canonical_mantissa. rewrite Ele, andb_true_r.
    apply Z.eqb_eq.
    change (Z.pos (digits2_pos p)) with (Zdigits2 (Z.pos p)).
    dbl. lia.
Qed.

Lemma binary_round_aux_sign s m e l :
  match binary_round_aux Double.prec Double.emax s m e l with
  | S754_zero s' | S754_infinity s' | S754_finite s' _ _ => s' = s
  | S754_nan => True
  end.
Proof.
  unfold binary_round_aux.
  destruct (shr_fexp Double.prec Double.emax m e l) as [r1 e1].
  destruct (shr_fexp _ _ _ e1 loc_Exact) as [r2 e2].
  destruct (shr_m r2); auto.
  destruct (e2 <=? Double.emax - Double.prec); auto.
Qed.

Lemma shl_align_spec mx ex e' :
  let '(mz, ez) := shl_align mx ex e' in
  ez = Z.min ex e' /\ Z.pos mz = Z.pos mx * 2 ^ (ex - ez).
Proof.
  unfold shl_align. destruct (e' - ex) as [|p|p] eqn:E.
  - split; [lia|]. rewrite Z.sub_diag. cbn. lia.
  - split; [lia|]. rewrite Z.sub_diag. cbn. lia.
  - split; [lia|].
    replace (ex - e') with (Z.pos p) by lia.
    change (Pos.iter xO mx p) with (shift_pos p mx).
    rewrite shift_pos_correct, Z.pow_pos_fold. lia.
Qed.

Lemma binary_round_shape s mx ex :
  match binary_round Double.prec Double.emax s mx ex with
  | S754_zero s' => s' = s /\ ex < -1074
  | S754_infinity s' => s' = s
  | S754_finite s' m' e' =>
      s' = s /\ bounded Double.prec Double.emax m' e' = true
  | S754_nan => False
  end.
Proof.
  unfold binary_round.
  pose proof (shl_align_spec mx ex
                (fexp Double.prec Double.emax (Z.pos (digits2_pos mx) + ex)))
    as H.
  destruct (shl_align mx ex _) as [mz ez]. destruct H as [Hez Hmz].
  assert (Hd : Zdigits2 (Z.pos mz) = Zdigits2 (Z.pos mx) + (ex - ez)).
  { rewrite Hmz. apply Zdigits2_mul_pow2; lia. }
  change (Z.pos (digits2_pos mx)) with (Zdigits2 (Z.pos mx)) in Hez.
  assert (Hpre : ez <= fexp Double.prec Double.emax
                        (Zdigits2 (Z.pos mz) + ez)).
  { rewrite Hd. replace (Zdigits2 (Z.pos mx) + (ex - ez) + ez)
      with (Zdigits2 (Z.pos mx) + ex) by lia. lia. }
  pose proof (binary_round_aux_shape s (Z.pos mz) ez loc_Exact
                ltac:(lia) Hpre) as Hs.
  destruct (binary_round_aux _ _ s (Z.pos mz) ez loc_Exact); auto.
  destruct Hs as [Hs Hz]. split; [exact Hs|].
  specialize (Hz ltac:(lia)). dbl. lia.
Qed.

Lemma of_Z_shape z :
  match Double.of_Z z with
  | S754_zero s => s = false /\ z = 0
  | S754_infinity s => s = (z <? 0)
  | S754_finite s m e =>
      s = (z <? 0) /\ bounded Double.prec Double.emax m e = true
  | S754_nan => False
  end.
Proof.
  unfold Double.of_Z, binary_normalize. destruct z as [|p|p].
  - auto.
  - pose proof (binary_round_shape false p 0) as H.
    destruct (binary_round _ _ false p 0); auto. lia.
  - pose proof (binary_round_shape true p 0) as H.
    destruct (binary_round _ _ true p 0); auto. lia.
Qed.

Lemma of_Z_valid z : Double.valid (Double.of_Z z) = true.
Proof.
  pose proof (of_Z_shape z) as H. unfold Double.valid.
  destruct (Double.of_Z z); try reflexivity. apply H.
Qed.

Lemma of_Z_sign z : 0 <= z -> Double.sign_clear (Double.of_Z z).
Proof.
  intros Hz. pose proof (of_Z_shape z) as H.
  assert (E : (z <? 0) = false) by (apply Z.ltb_ge; lia).
  rewrite E in H.
  destruct (Double.of_Z z); cbn; try tauto.
Qed.

(** *** Division *)

Lemma SFdiv_core_binary_spec m1 e1 m2 e2 :
  0 < m1 -> 0 < m2 ->
  let '(q, e', l) :=
    SFdiv_core_binary Double.prec Double.emax m1 e1 m2 e2 in
  0 <= q /\ e' <= fexp Double.prec Double.emax (Zdigits2 q + e').
Proof.
  intros H1 H2. unfold SFdiv_core_binary.
  set (e' := Z.min (fexp Double.prec Double.emax
                      (Zdigits2 m1 + e1 - (Zdigits2 m2 + e2))) (e1 - e2)).
  set (s := e1 - e2 - e').
  assert (Hs : 0 <= s) by (subst s e'; lia).
  set (m' := match s with
             | 0 => m1
             | Z.pos _ => Z.shiftl m1 s
             | Z.neg _ => 0
             end).
  assert (Hm' : m' = m1 * 2 ^ s).
  { subst m'. destruct s as [|p|p] eqn:E; [cbn; lia| |lia].
    apply Z.shiftl_mul_pow2. lia. }
  clearbody m'.
  assert (Hps : 0 < 2 ^ s) by (apply Z.pow_pos_nonneg; lia).
  assert (Hm'pos : 0 < m') by nia.
  pose proof (Z_div_mod m' m2 ltac:(lia)) as Hdm.
  assert (Hq : fst (Z.div_eucl m' m2) = m' / m2) by reflexivity.
  destruct (Z.div_eucl m' m2) as [q r]. cbn [fst] in Hq.
  assert (Hq0 : 0 <= q) by (rewrite Hq; apply Z.div_pos; lia).
  split; [exact Hq0|].
  assert (Hd : Zdigits2 m' - Zdigits2 m2 <= Zdigits2 q)
    by (rewrite Hq; apply Zdigits2_div; lia).
  assert (Hdm' : Zdigits2 m' = Zdigits2 m1 + s)
    by (rewrite Hm'; apply Zdigits2_mul_pow2; lia).
  subst s e'. dbl. lia.
Qed.

Lemma div_valid x y : Double.valid (Double.div x y) = true.
Proof.
  unfold Double.valid, Double.div, SFdiv.
  destruct x as [sx|sx| |sx mx ex], y as [sy|sy| |sy my ey];
    try reflexivity.
  pose proof (SFdiv_core_binary_spec (Z.pos mx) ex (Z.pos my) ey
                ltac:(lia) ltac:(lia)) as H.
  destruct (SFdiv_core_binary _ _ (Z.pos mx) ex (Z.pos my) ey)
    as [[q e'] l]. destruct H as [Hq He].
  pose proof (binary_round_aux_shape (xorb sx sy) q e' l Hq He) as Hs.
  destruct (binary_round_aux _ _ _ q e' l); try reflexivity. apply Hs.
Qed.

Lemma div_sign x y :
  Double.sign_clear x -> Double.sign_clear y ->
  Double.sign_clear (Double.div x y).
Proof.
  unfold Double.div, SFdiv.
  destruct x as [sx|sx| |sx mx ex], y as [sy|sy| |sy my ey];
    cbn [Double.sign_clear]; intros Hx Hy; subst; cbv beta iota;
    cbn [Double.sign_clear xorb]; auto.
  destruct (SFdiv_core_binary _ _ (Z.pos mx) ex (Z.pos my) ey)
    as [[q e'] l].
  apply (binary_round_aux_sign false q e' l).
Qed.

(** *** Multiplication *)

Lemma bounded_spec m e :
  bounded Double.prec Double.emax m e = true ->
  fexp Double.prec Double.emax (Zdigits2 (Z.pos m) + e) = e /\ e <= 971.
Proof.
  unfold bounded, canonical_mantissa. intros H.
  apply andb_true_iff in H. destruct H as [H1 H2].
  apply Z.eqb_eq in H1. apply Z.leb_le in H2.
  split; [exact H1|]. unfold Double.emax, Double.prec in H2. lia.
Qed.

Lemma mul_valid x y :
  Double.valid x = true -> Double.valid y = true ->
  Double.valid (Double.mul x y) = true.
Proof.
  unfold Double.valid, Double.mul, SFmul.
  destruct x as [sx|sx| |sx mx ex], y as [sy|sy| |sy my ey];
    try reflexivity.
  cbn [valid_binary]. intros Hx Hy.
  apply bounded_spec in Hx, Hy. destruct Hx as [Hx _], Hy as [Hy _].
  pose proof (Zdigits2_mul (Z.pos mx) (Z.pos my) ltac:(lia) ltac:(lia))
    as Hd.
  pose proof (Zdigits2_pos (Z.pos mx) ltac:(lia)).
  pose proof (Zdigits2_pos (Z.pos my) ltac:(lia)).
  change (Z.pos (mx * my)) with (Z.pos mx * Z.pos my).
  assert (Hpre : ex + ey <= fexp Double.prec Double.emax
                   (Zdigits2 (Z.pos mx * Z.pos my) + (ex + ey)))
    by (dbl; lia).
  pose proof (binary_round_aux_shape (xorb sx sy) (Z.pos mx * Z.pos my)
                (ex + ey) loc_Exact ltac:(lia) Hpre) as Hs.
  destruct (binary_round_aux _ _ _ _ (ex + ey) loc_Exact);
    try reflexivity. apply Hs.
Qed.

Lemma sign_clear_not_negative x :
  Double.sign_clear x -> Double.not_negative x = true.
Proof.
  destruct x as [s|s| |s m e]; cbn; intros H; subst; reflexivity.
Qed.

Lemma positive_not_negative x :
  Double.positive x = true -> Double.not_negative x = true.
Proof.
  destruct x as [s|[]| |[] m e]; cbn; intros H;
    reflexivity || discriminate.
Qed.

Lemma mul_not_negative x y :
  Double.sign_clear x -> Double.not_negative y = true ->
  Double.not_negative (Double.mul x y) = true.
Proof.
  unfold Double.mul, SFmul.
  destruct x as [sx|sx| |sx mx ex], y as [sy|[]| |[] my ey];
    cbn [Double.sign_clear]; intros Hx Hy; subst; try discriminate Hy;
    try reflexivity.
  pose proof (binary_round_aux_sign (xorb false false)
                (Z.pos (mx * my)) (ex + ey) loc_Exact) as H.
  apply sign_clear_not_negative.
  destruct (binary_round_aux _ _ _ _ (ex + ey) loc_Exact); cbn; auto.
Qed.

(** A value greater than one with a clear sign bit has a clear sign bit. *)
Lemma gt_sign_clear a b :
  Double.sign_clear b -> Double.gt a b = true -> Double.sign_clear a.
Proof.
  unfold Double.gt, SFltb, SFcompare.
  destruct a as [sa|sa| |sa ma ea], b as [sb|sb| |sb mb eb];
    cbn [Double.sign_clear]; intros Hb; subst;
    try (destruct sa; intros H; reflexivity || discriminate H);
    try (intros H; discriminate H); auto.
Qed.

Lemma MAX_sign_clear a b :
  Double.sign_clear a -> Double.sign_clear b -> Double.sign_clear (MAX a b).
Proof. unfold MAX. destruct (Double.gt a b); auto. Qed.

Lemma MAX_sign_clear_r a b : Double.sign_clear b -> Double.sign_clear (MAX a b).
Proof.
  intros Hb. unfold MAX. destruct (Double.gt a b) eqn:E; [|exact Hb].
  exact (gt_sign_clear a b Hb E).
Qed.

Lemma MAX_valid a b :
  Double.valid a = true -> Double.valid b = true ->
  Double.valid (MAX a b) = true.
Proof. unfold MAX. destruct (Double.gt a b); auto. Qed.

(** [a == b] excludes [a > b]. *)
Lemma eq_not_gt a b : Double.eq a b = true -> Double.gt a b = false.
Proof.
  unfold Double.eq, Double.gt, SFeqb, SFltb, SFcompare.
  destruct a as [sa|sa| |sa ma ea], b as [sb|sb| |sb mb eb];
    try (intros H; discriminate H); try reflexivity;
    try (destruct sa, sb; intros H; reflexivity || discriminate H);
    try (destruct sa; intros H; reflexivity || discriminate H);
    try (destruct sb; intros H; reflexivity || discriminate H).
  - destruct sa, sb; intros H; try discriminate H; try reflexivity.
    + rewrite (Z.compare_antisym ea eb).
      destruct (ea ?= eb); cbn in *; try discriminate H; try reflexivity.
      rewrite ZC4. destruct (Pos.compare_cont Eq ma mb); cbn in *;
        reflexivity || discriminate H.
    + rewrite (Z.compare_antisym ea eb).
      destruct (ea ?= eb); cbn in *; try discriminate H; try reflexivity.
      rewrite ZC4. destruct (Pos.compare_cont Eq ma mb); cbn in *;
        reflexivity || discriminate H.
Qed.

(** *** Subtraction *)

Lemma bounded_range m e :
  bounded Double.prec Double.emax m e = true ->
  -1074 <= e /\ Z.pos m < 2 ^ 53 /\ (-1074 < e -> 2 ^ 52 <= Z.pos m).
Proof.
  intros H. apply bounded_spec in H. destruct H as [H _].
  pose proof (Zdigits2_bounds (Z.pos m) ltac:(lia)) as [Hl Hu].
  pose proof (Zdigits2_pos (Z.pos m) ltac:(lia)) as Hd.
  assert (He : -1074 <= e) by (dbl; lia).
  assert (Hd53 : Zdigits2 (Z.pos m) <= 53) by (dbl; lia).
  split; [exact He|]. split.
  - eapply Z.lt_le_trans; [exact Hu|].
    apply Z.pow_le_mono_r; lia.
  - intros Hgt. assert (Zdigits2 (Z.pos m) = 53) by (dbl; lia).
    replace 52 with (Zdigits2 (Z.pos m) - 1) by lia. exact Hl.
Qed.

(** Taking a smaller value that is not negative from a greater one leaves
    a positive value: the difference of two doubles never rounds to zero. *)
Lemma sub_positive x y :
  Double.valid x = true -> Double.valid y = true ->
  Double.sign_clear y -> Double.gt x y = true ->
  Double.positive (Double.sub x y) = true.
Proof.
  unfold Double.valid, Double.gt, Double.sub, SFltb, SFcompare, SFsub.
  destruct x as [sx|sx| |sx mx ex], y as [sy|sy| |sy my ey];
    cbn [Double.sign_clear valid_binary]; intros Hx Hy Hs Hgt; subst;
    try discriminate Hgt;
    try (destruct sx; discriminate Hgt || reflexivity).
  destruct sx; [discriminate Hgt|].
  apply bounded_range in Hx, Hy.
  destruct Hx as (Hex & Hmx & Hnx), Hy as (Hey & Hmy & Hny).
  pose proof (shl_align_spec mx ex (Z.min ex ey)) as Ax.
  pose proof (shl_align_spec my ey (Z.min ex ey)) as Ay.
  destruct (shl_align mx ex (Z.min ex ey)) as [ax zx].
  destruct (shl_align my ey (Z.min ex ey)) as [ay zy].
  destruct Ax as [Ezx Eax], Ay as [Ezy Eay].
  cbn [fst cond_Zopp].
  assert (Hdiff : 0 < Z.pos ax - Z.pos ay).
  { rewrite Eax, Eay.
    destruct (Z.compare_spec ey ex) as [E | E | E]; try discriminate Hgt.
    - subst ey. replace (ex - zx) with 0 by lia.
      replace (ex - zy) with 0 by lia.
      destruct (Pos.compare_cont Eq my mx) eqn:Ec; try discriminate Hgt.
      assert (my < mx)%positive by (apply Pos.compare_lt_iff; exact Ec).
      rewrite Z.pow_0_r. lia.
    - replace (ey - zy) with 0 by lia.
      replace (ex - zx) with (ex - ey) by lia.
      assert (Hp : 2 ^ 1 <= 2 ^ (ex - ey))
        by (apply Z.pow_le_mono_r; lia).
      specialize (Hnx ltac:(lia)).
      rewrite Z.pow_0_r. change (2 ^ 53) with (2 ^ 52 * 2) in Hmy.
      change (2 ^ 1) with 2 in Hp.
      assert (Z.pos mx * 2 <= Z.pos mx * 2 ^ (ex - ey))
        by (apply Z.mul_le_mono_nonneg_l; lia).
      lia. }
  destruct (Z.pos ax - Z.pos ay) as [|d|d] eqn:Ed; try lia.
  cbn [binary_normalize].
  pose proof (binary_round_shape false d (Z.min ex ey)) as Hsh.
  destruct (binary_round _ _ false d (Z.min ex ey)) as [s|s| |s m e];
    cbn.
  - lia.
  - now subst.
  - contradiction.
  - destruct Hsh as [-> _]. reflexivity.
Qed.

(** ** The time to play *)

Lemma truncate_not_negative x n :
  Double.not_negative x = true -> Double.truncate x = Some n -> 0 <= n.
Proof.
  destruct x as [s|s| |s m e]; intros H E; cbn [Double.truncate] in E;
    try discriminate E; injection E as <-; [lia|].
  destruct s; [discriminate H|].
  destruct e as [|p|p].
  - rewrite Z.shiftl_0_r. lia.
  - rewrite Z.shiftl_mul_pow2 by lia.
    assert (0 < 2 ^ Z.pos p) by (apply Z.pow_pos_nonneg; lia). nia.
  - apply Z.shiftr_nonneg. lia.
Qed.

Lemma to_u32_range x : U32.in_range (Double.to_u32 x).
Proof.
  unfold Double.to_u32.
  destruct (Double.truncate x) as [n|];
    [|unfold U32.in_range, U32.modulus; lia].
  destruct (Z.abs n <? 2 ^ 63);
    [apply wrap_range | unfold U32.in_range, U32.modulus; lia].
Qed.

Section CalcTimeFacts.

Variable BOARD_SIZ : Z.
Variable TIME_ALLOT_FACTOR : Double.double.
Variable LATENCY_COMPENSATION : Z.
Variable DETECT_NETWORK_LATENCY : bool.

Hypothesis board_not_negative : 0 <= BOARD_SIZ.
Hypothesis factor_valid : Double.valid TIME_ALLOT_FACTOR = true.
Hypothesis factor_not_negative :
  Double.not_negative TIME_ALLOT_FACTOR = true.

Let before := time_before_lag BOARD_SIZ TIME_ALLOT_FACTOR.
Let correction :=
  lag_correction LATENCY_COMPENSATION DETECT_NETWORK_LATENCY.
Let comp := compensation LATENCY_COMPENSATION DETECT_NETWORK_LATENCY.
Let gate := lag_gate DETECT_NETWORK_LATENCY.

Lemma time_before_lag_valid ts turns_played :
  Double.valid (before ts turns_played) = true.
Proof.
  unfold before, time_before_lag. cbv zeta.
  apply mul_valid; [|exact factor_valid].
  destruct (0 <? byo_yomi_stones_remaining ts).
  - apply MAX_valid; apply div_valid.
  - apply div_valid.
Qed.

Lemma time_before_lag_not_negative ts turns_played :
  well_formed ts -> Double.not_negative (before ts turns_played) = true.
Proof.
  intros []. unfold before, time_before_lag. cbv zeta.
  apply mul_not_negative; [|exact factor_not_negative].
  assert (Hl : forall e1, Double.sign_clear
             (MAX e1 (Double.div (Double.of_Z BOARD_SIZ) (Double.of_Z 4)))).
  { intros e1. apply MAX_sign_clear_r.
    apply div_sign; apply of_Z_sign; lia. }
  assert (Hmtt : forall e1, Double.sign_clear
            (Double.div (Double.of_Z (main_time_remaining ts))
               (MAX e1 (Double.div (Double.of_Z BOARD_SIZ)
                          (Double.of_Z 4))))).
  { intros e1. apply div_sign; [apply of_Z_sign|apply Hl].
    unfold U32.in_range in *. lia. }
  destruct (0 <? byo_yomi_stones_remaining ts).
  - apply MAX_sign_clear; [|apply Hmtt].
    apply div_sign; apply of_Z_sign; unfold U32.in_range in *; lia.
  - apply Hmtt.
Qed.

Lemma lag_correction_cases g t :
  (gate g = true /\ Double.gt t (Double.of_Z (comp g)) = true /\
   correction g t = Double.sub t (Double.of_Z (comp g))) \/
  ((gate g = false \/ Double.gt t (Double.of_Z (comp g)) = false) /\
   correction g t = t).
Proof.
  unfold correction, lag_correction, comp, compensation, gate, lag_gate.
  destruct DETECT_NETWORK_LATENCY.
  - destruct (network_round_trip_set g); cbn [andb]; [|auto].
    destruct (Double.gt t _); auto.
  - destruct (Double.gt t _); auto.
Qed.


End CalcTimeFacts.



(** The test is made on the rounded value: [3000 / 13.0 * 1.3] is [300.0]
    and stays, [3000 / 11.0 * 1.1] is just above [300.0] and loses the
    latency; a value beyond the [u32] range wraps around on return. *)
Remark lag_test_follows_rounding :
  let f13 := Double.div (Double.of_Z 13) (Double.of_Z 10) in
  let f11 := Double.div (Double.of_Z 11) (Double.of_Z 10) in
  calc_time_to_play 19 f13 300 false (latency_init 300)
    (set_time_system 0 3000 13 1) 0 = 300 /\
  calc_time_to_play 19 f11 300 false (latency_init 300)
    (set_time_system 0 3000 11 1) 0 = 0 /\
  Double.to_u32 (Double.of_Z 6442450642) = 2147483346.
Proof. vm_compute. repeat split. Qed.

(** ** The engine glue *)

Section EngineFacts.

Variables board out_board transpositions : Type.
Variable reduce_auto : board -> bool -> board * Z.
Variable opening_book : board -> option out_board.
Variable oboard_revert_reduce : out_board -> Z -> out_board.
Variable mcts_start :
  transpositions -> board -> bool -> Z -> Z -> transpositions * out_board * Q.
Variable tt_clean_outside_tree :
  transpositions -> board -> bool -> transpositions * Z.
Variable tt_clean_all : transpositions -> transpositions.
Variable transpositions_table_init : transpositions -> transpositions.
Variable UCT_MIN_WINRATE : Q.
Variable sizeof_tt_stats : Z.

Let engine := Engine.engine transpositions.
Let evaluate_position :=
  Engine.evaluate_position board out_board transpositions reduce_auto
    opening_book oboard_revert_reduce mcts_start UCT_MIN_WINRATE.
Let book_hit :=
  Engine.book_hit board out_board transpositions reduce_auto opening_book.
Let opt_turn_maintenance :=
  Engine.opt_turn_maintenance board transpositions tt_clean_outside_tree
    sizeof_tt_stats.
Let perform :=
  Engine.perform board out_board transpositions reduce_auto opening_book
    oboard_revert_reduce mcts_start tt_clean_outside_tree tt_clean_all
    transpositions_table_init UCT_MIN_WINRATE sizeof_tt_stats.
Let perform_all :=
  Engine.perform_all board out_board transpositions reduce_auto opening_book
    oboard_revert_reduce mcts_start tt_clean_outside_tree tt_clean_all
    transpositions_table_init UCT_MIN_WINRATE sizeof_tt_stats.
Let searched_since_maintenance :=
  Engine.searched_since_maintenance board out_board reduce_auto opening_book.

Lemma evaluate_position_book_hit (e : engine) b is_black stop early :
  book_hit e b is_black = true ->
  exists out_b,
    evaluate_position e b is_black stop early = (e, out_b, true).
Proof.
  unfold book_hit, Engine.book_hit, evaluate_position,
    Engine.evaluate_position.
  destruct (Engine.use_opening_book _ e); cbn [andb]; [|discriminate].
  destruct (reduce_auto b is_black) as [tmp reduction]. cbn [fst].
  destruct (opening_book tmp); [|discriminate].
  intros _. eexists. reflexivity.
Qed.

Lemma evaluate_position_search (e : engine) b is_black stop early :
  book_hit e b is_black = false ->
  evaluate_position e b is_black stop early
  = (let '(t, out_b, win_rate) :=
       mcts_start (Engine.table _ e) b is_black stop early in
     (Engine.mk_engine _ (Engine.use_opening_book _ e) true
        (Engine.komi_offset _ e) t (Engine.output _ e),
      out_b, Qle_bool UCT_MIN_WINRATE win_rate)).
Proof.
  unfold book_hit, Engine.book_hit, evaluate_position,
    Engine.evaluate_position.
  destruct (Engine.use_opening_book _ e); cbn [andb]; [|reflexivity].
  destruct (reduce_auto b is_black) as [tmp reduction]. cbn [fst].
  destruct (opening_book tmp); [discriminate|reflexivity].
Qed.

(** The flag and the opening-book switch after a history of calls. *)
Lemma perform_all_flag cs : forall e : engine,
  Engine.tt_requires_maintenance _ (perform_all e cs)
  = searched_since_maintenance (Engine.use_opening_book _ e)
      (Engine.tt_requires_maintenance _ e) cs.
Proof.
  induction cs as [|c cs IH]; intros e; [reflexivity|].
  unfold perform_all, Engine.perform_all in *. cbn [fold_left].
  rewrite IH. clear IH.
  destruct c as [b is_black stop early | b is_black | | use_ob];
    cbn [Engine.perform searched_since_maintenance
         Engine.searched_since_maintenance].
  - fold evaluate_position.
    destruct (book_hit e b is_black) eqn:Hh.
    + destruct (evaluate_position_book_hit e b is_black stop early Hh)
        as [out_b ->].
      unfold book_hit, Engine.book_hit in Hh. rewrite Hh. reflexivity.
    + rewrite (evaluate_position_search e b is_black stop early Hh).
      unfold book_hit, Engine.book_hit in Hh. rewrite Hh.
      destruct (mcts_start _ _ _ _ _) as [[t out_b] win_rate].
      reflexivity.
  - unfold Engine.opt_turn_maintenance.
    destruct (Engine.tt_requires_maintenance _ e) eqn:Hf.
    + destruct (tt_clean_outside_tree _ _ _). reflexivity.
    + rewrite Hf. reflexivity.
  - reflexivity.
  - reflexivity.
Qed.

(** C5.  After any history of calls from the initial state,
    [opt_turn_maintenance] calls [tt_clean_outside_tree] and clears
    [tt_requires_maintenance] exactly when some [evaluate_position] took the
    search path since the last maintenance pass (a book hit leaves the flag
    alone); otherwise it changes nothing.  Either way the flag is clear
    afterwards, so a second call right after does nothing. *)
Theorem maintenance_gating komi t cs b is_black b2 is_black2 :
  let e := perform_all (Engine.initial _ komi t) cs in
  let e' := opt_turn_maintenance e b is_black in
  Engine.tt_requires_maintenance _ e
  = searched_since_maintenance true false cs /\
  Engine.pruned _ e e' = searched_since_maintenance true false cs /\
  e' = (if searched_since_maintenance true false cs then
          Engine.mk_engine _ (Engine.use_opening_book _ e) false
            (Engine.komi_offset _ e)
            (fst (tt_clean_outside_tree (Engine.table _ e) b is_black))
            (Engine.output _ e ++
             [Engine.freed_states
                (snd (tt_clean_outside_tree (Engine.table _ e) b is_black))
                (snd (tt_clean_outside_tree (Engine.table _ e) b is_black)
                 * sizeof_tt_stats / 1048576)])
        else e) /\
  Engine.tt_requires_maintenance _ e' = false /\
  opt_turn_maintenance e' b2 is_black2 = e'.
Proof.
  intros e e'.
  pose proof (perform_all_flag cs (Engine.initial _ komi t)) as Hf.
  cbn [Engine.initial Engine.use_opening_book Engine.tt_requires_maintenance]
    in Hf.
  fold e in Hf. rewrite <- Hf.
  subst e'. unfold opt_turn_maintenance, Engine.opt_turn_maintenance,
    Engine.pruned.
  destruct (Engine.tt_requires_maintenance _ e) eqn:Hflag.
  - destruct (tt_clean_outside_tree (Engine.table _ e) b is_black)
      as [t' freed].
    cbn. rewrite length_app. cbn.
    repeat split. apply Nat.ltb_lt. lia.
  - rewrite Hflag. repeat split. apply Nat.ltb_irrefl.
Qed.

(** C10.  An [evaluate_position] that returns from the opening-book hit
    returns [true], the value that does not allow resigning, whatever
    [UCT_MIN_WINRATE] is, and leaves the globals as they were. *)
Theorem book_hit_never_resigns (e : engine) b is_black stop early :
  book_hit e b is_black = true ->
  snd (evaluate_position e b is_black stop early) = true /\
  fst (fst (evaluate_position e b is_black stop early)) = e.
Proof.
  intros H.
  destruct (evaluate_position_book_hit e b is_black stop early H)
    as [out_b ->].
  split; reflexivity.
Qed.

End EngineFacts.

Lemma book_hit_never_resigns_witness :
  let e := Engine.initial unit 0 tt in
  snd (Engine.evaluate_position unit unit unit
         (fun b _ => (b, 0)) (fun _ => Some tt) (fun o _ => o)
         (fun t _ _ _ _ => (t, tt, 0%Q)) 1%Q e tt true 0 0) = true /\
  fst (fst (Engine.evaluate_position unit unit unit
         (fun b _ => (b, 0)) (fun _ => Some tt) (fun o _ => o)
         (fun t _ _ _ _ => (t, tt, 0%Q)) 1%Q e tt true 0 0)) = e.
Proof.
  apply (book_hit_never_resigns unit unit unit
           (fun b _ => (b, 0)) (fun _ => Some tt) (fun o _ => o)
           (fun t _ _ _ _ => (t, tt, 0%Q)) 1%Q
           (Engine.initial unit 0 tt) tt true 0 0).
  reflexivity.
Defined.

(** * Further properties *)

(** ** More on the clock *)

Lemma loop_body_configuration ts ms c :
  match loop_body ts ms c with
  | Return ts' => same_configuration ts ts'
  | Continue ts' _ _ => same_configuration ts ts'
  end.
Proof.
  unfold loop_body, same_configuration.
  destruct c; split_eqb; cbn; repeat split.
Qed.

Lemma advance_loop_configuration fuel : forall ts ms c r,
  advance_loop fuel ts ms c = Some r -> same_configuration ts r.
Proof.
  induction fuel as [|fuel IH]; intros ts ms c r H; simpl in H;
    destruct (0 <? ms); try discriminate;
    try (injection H as <-; unfold same_configuration; repeat split).
  pose proof (loop_body_configuration ts ms c) as Hb.
  destruct (loop_body ts ms c) as [ts'|ts' ms' c'].
  - injection H as <-. exact Hb.
  - apply IH in H. unfold same_configuration in *.
    destruct Hb as (? & ? & ? & ? & ?), H as (? & ? & ? & ? & ?).
    repeat split; congruence.
Qed.

Lemma advances_to_configuration ts ms r :
  advances_to ts ms r -> same_configuration ts r.
Proof.
  intros [fuel H]. unfold advance_clock in H.
  destruct (negb (can_timeout ts) || timed_out ts).
  - injection H as <-. unfold same_configuration. repeat split.
  - eapply advance_loop_configuration; eauto.
Qed.

Lemma reset_clock_configuration ts r :
  same_configuration ts r -> reset_clock r = reset_clock ts.
Proof.
  intros (Hc & Hm & Ht & Hs & Hp). unfold reset_clock.
  now rewrite Hc, Hm, Ht, Hs, Hp.
Qed.

(** X1.  [advance_clock] never writes [can_timeout] or a configured value:
    after any calls, [reset_clock] gives the clock [reset_clock] gives at
    the start. *)
Theorem reset_clock_after_run ts calls after :
  run ts calls after ->
  Forall (fun r => same_configuration ts r /\ reset_clock r = reset_clock ts)
    after.
Proof.
  induction 1 as [|ts ms ts' rest after Ha Hr IH]; constructor.
  - pose proof (advances_to_configuration ts ms ts' Ha) as Hc.
    split; [exact Hc | now apply reset_clock_configuration].
  - pose proof (advances_to_configuration ts ms ts' Ha) as Hc.
    eapply Forall_impl; [|exact IH]. cbn. intros r [Hr1 Hr2].
    split.
    + unfold same_configuration in *.
      destruct Hc as (? & ? & ? & ? & ?), Hr1 as (? & ? & ? & ? & ?).
      repeat split; congruence.
    + rewrite Hr2. now apply reset_clock_configuration.
Qed.

Lemma reset_clock_after_run_witness :
  Forall
    (fun r => same_configuration (set_sudden_death 1000) r /\
              reset_clock r = reset_clock (set_sudden_death 1000))
    [mk_time_system true false 1000 600 0 0 0 0 0 0].
Proof.
  apply (reset_clock_after_run (set_sudden_death 1000) [400]).
  econstructor; [exists 1%nat; reflexivity | constructor].
Defined.


Lemma preset_reset ts : preset ts -> reset_clock ts = ts.
Proof. destruct 1; reflexivity. Qed.

Lemma loop_body_timed_out ts ms c :
  timed_out ts = false ->
  match loop_body ts ms c with
  | Return ts' =>
      timed_out ts' = true /\ main_time_remaining ts' = 0 /\
      byo_yomi_time_remaining ts' = 0 /\ byo_yomi_periods_remaining ts' = 0
  | Continue ts' _ _ => timed_out ts' = false
  end.
Proof.
  intros Ht. unfold loop_body.
  destruct c; split_eqb; cbn in *; auto.
Qed.

Lemma advance_loop_timed_out fuel : forall ts ms c r,
  timed_out ts = false ->
  advance_loop fuel ts ms c = Some r ->
  timed_out r = true ->
  main_time_remaining r = 0 /\ byo_yomi_time_remaining r = 0 /\
  byo_yomi_periods_remaining r = 0.
Proof.
  induction fuel as [|fuel IH]; intros ts ms c r Ht H Hr; simpl in H;
    destruct (0 <? ms); try congruence.
  pose proof (loop_body_timed_out ts ms c Ht) as Hb.
  destruct (loop_body ts ms c) as [ts'|ts' ms' c'].
  - injection H as <-. tauto.
  - eapply IH; eauto.
Qed.

Lemma advances_to_exhausted ts ms r :
  exhausted_if_timed_out ts -> advances_to ts ms r ->
  exhausted_if_timed_out r.
Proof.
  intros Hi [fuel H]. unfold advance_clock in H.
  destruct (can_timeout ts) eqn:Hc, (timed_out ts) eqn:Ht; cbn in H;
    try (injection H as <-; exact Hi).
  intros Hr.
  pose proof (advance_loop_configuration _ _ _ _ _ H) as (Hc' & _).
  split; [congruence|].
  eapply advance_loop_timed_out; eauto.
Qed.

(** X2.  From a clock that has not timed out, every clock a sequence of
    calls leaves with [timed_out] set can time out and has no main time, no
    period time and no period left. *)
Theorem timeout_means_exhausted ts calls after :
  timed_out ts = false -> run ts calls after ->
  Forall exhausted_if_timed_out after.
Proof.
  intros Ht Hr.
  assert (Hi : exhausted_if_timed_out ts)
    by (unfold exhausted_if_timed_out; congruence).
  clear Ht. induction Hr as [|ts ms ts' rest after Ha Hr IH]; constructor.
  - eapply advances_to_exhausted; eauto.
  - apply IH. eapply advances_to_exhausted; eauto.
Qed.

Lemma timeout_means_exhausted_witness :
  Forall exhausted_if_timed_out
    [mk_time_system true true 0 0 30000 0 1 0 1 0].
Proof.
  apply (timeout_means_exhausted (set_time_system 0 30000 1 1) [30000]).
  - reflexivity.
  - econstructor; [exists 1%nat; reflexivity | constructor].
Defined.


Lemma advances_to_stopped ts ms r :
  can_timeout ts = false \/ timed_out ts = true ->
  advances_to ts ms r -> r = ts.
Proof.
  intros Hs [fuel H]. unfold advance_clock in H.
  destruct Hs as [E | E]; rewrite E in H; cbn in H;
    rewrite ?orb_true_r in H; congruence.
Qed.

(** X3.  A clock that cannot time out, or that has timed out, is left as it
    is by every call. *)
Theorem stopped_clock_stays ts calls after :
  can_timeout ts = false \/ timed_out ts = true ->
  run ts calls after -> Forall (eq ts) after.
Proof.
  intros Hs Hr. induction Hr as [|ts ms ts' rest after Ha Hr IH];
    constructor.
  - symmetry. eapply advances_to_stopped; eauto.
  - pose proof (advances_to_stopped ts ms ts' Hs Ha). subst ts'. auto.
Qed.

Lemma stopped_clock_stays_witness :
  Forall (eq (set_time_per_turn 30000)) [set_time_per_turn 30000].
Proof.
  apply (stopped_clock_stays (set_time_per_turn 30000) [40000]).
  - left. reflexivity.
  - econstructor; [exists 0%nat; reflexivity | constructor].
Defined.


Lemma advance_loop_done fuel ts c : advance_loop fuel ts 0 c = Some ts.
Proof. destruct fuel; reflexivity. Qed.

Lemma advance_loop_main_time fuel ts ms c :
  U32.in_range (main_time_remaining ts) ->
  0 <= ms <= main_time_remaining ts ->
  advance_loop (S fuel) ts ms c
  = Some (set_main_time_remaining ts (main_time_remaining ts - ms)).
Proof.
  intros Hr Hms.
  destruct ts as [ct tout mt mtr bt btr bs bsr bp bpr]; fields_in_all.
  rewrite advance_loop_unfold.
  destruct (Z.ltb_spec 0 ms).
  - unfold loop_body; fields_in_all.
    destruct (Z.eqb_spec mtr 0); [lia|].
    replace (Z.min mtr ms) with ms by lia.
    replace (U32.sub ms ms) with 0 by u32.
    replace (U32.sub mtr ms) with (mtr - ms) by u32.
    apply advance_loop_done.
  - unfold set_main_time_remaining; cbn. do 2 f_equal. lia.
Qed.

(** X4.  A call that asks for no more than the main time left takes it
    from [main_time_remaining] and touches nothing else. *)
Theorem main_time_consumption fuel ts ms :
  can_timeout ts = true -> timed_out ts = false ->
  U32.in_range (main_time_remaining ts) ->
  0 <= ms <= main_time_remaining ts ->
  advance_clock (S fuel) ts ms
  = Some (set_main_time_remaining ts (main_time_remaining ts - ms)).
Proof.
  intros Hc Ht Hr Hms. unfold advance_clock. rewrite Hc, Ht. cbn [negb orb].
  now apply advance_loop_main_time.
Qed.

Lemma main_time_consumption_witness :
  advance_clock 1 (set_sudden_death 1000) 400
  = Some (set_main_time_remaining (set_sudden_death 1000)
            (main_time_remaining (set_sudden_death 1000) - 400)).
Proof.
  apply (main_time_consumption 0 (set_sudden_death 1000) 400).
  - reflexivity.
  - reflexivity.
  - cbn; unfold U32.in_range, U32.modulus; lia.
  - cbn; lia.
Defined.





Lemma loop_body_move_in_period ts ms :
  well_formed ts -> U32.in_range ms ->
  main_time_remaining ts = 0 ->
  0 < ms < byo_yomi_time_remaining ts ->
  1 <= byo_yomi_stones_remaining ts ->
  loop_body ts ms false = Continue (moved_in_period ts ms) 0 true.
Proof.
  intros [] Hms Hm Hlt Hs.
  destruct ts as [ct tout mt mtr bt btr bs bsr bp bpr]; fields_in_all.
  subst. unfold loop_body, moved_in_period, replenish; cbn.
  replace (Z.min btr ms) with ms by lia.
  replace (U32.sub ms ms) with 0 by u32.
  replace (U32.sub btr ms) with (btr - ms) by u32.
  replace (U32.dec bsr) with (bsr - 1) by u32.
  destruct (Z.eqb_spec (btr - ms) 0); [lia|].
  destruct (Z.eqb_spec (bsr - 1) 0), (Z.eqb_spec bsr 1); try lia;
    reflexivity.
Qed.

(** X6.  A call in overtime that leaves period time charges one stone;
    when that was the last stone of the quota the period time and the stones
    are refilled and no period is charged. *)
Theorem move_within_period fuel ts ms :
  well_formed ts -> U32.in_range ms ->
  can_timeout ts = true -> timed_out ts = false ->
  main_time_remaining ts = 0 ->
  0 < ms < byo_yomi_time_remaining ts ->
  1 <= byo_yomi_stones_remaining ts ->
  advance_clock (S fuel) ts ms = Some (moved_in_period ts ms).
Proof.
  intros Hwf Hms Hc Ht Hm Hlt Hs. unfold advance_clock. rewrite Hc, Ht.
  cbn [negb orb]. rewrite advance_loop_unfold.
  replace (0 <? ms) with true by (symmetry; apply Z.ltb_lt; lia).
  rewrite (loop_body_move_in_period ts ms Hwf Hms Hm Hlt Hs).
  apply advance_loop_done.
Qed.

Lemma move_within_period_witness :
  advance_clock 1 (set_time_system 0 60000 1 2) 8000
  = Some (moved_in_period (set_time_system 0 60000 1 2) 8000).
Proof.
  apply (move_within_period 0 (set_time_system 0 60000 1 2) 8000).
  - constructor; cbn; unfold U32.in_range, U32.modulus; lia.
  - unfold U32.in_range, U32.modulus; lia.
  - reflexivity.
  - reflexivity.
  - reflexivity.
  - cbn; lia.
  - cbn; lia.
Defined.


(** *** When a call times out *)

Lemma loop_body_partial ts ms c :
  well_formed ts -> U32.in_range ms ->
  main_time_remaining ts = 0 ->
  0 < ms < byo_yomi_time_remaining ts ->
  exists ts',
    loop_body ts ms c = Continue ts' 0 true /\ timed_out ts' = timed_out ts.
Proof.
  intros [] Hms Hm Hlt.
  destruct ts as [ct tout mt mtr bt btr bs bsr bp bpr]; fields_in_all.
  subst. unfold loop_body, replenish; cbn.
  replace (Z.min btr ms) with ms by lia.
  replace (U32.sub ms ms) with 0 by u32.
  destruct c; cbn;
    (destruct (Z.eqb_spec (U32.sub btr ms) 0); [exfalso; u32|]);
    match goal with
    | |- context [?a =? 0] => destruct (Z.eqb_spec a 0)
    end; eexists; split; reflexivity.
Qed.

Lemma loop_body_last ts ms c :
  well_formed ts -> U32.in_range ms ->
  main_time_remaining ts = 0 ->
  byo_yomi_time_remaining ts <= ms ->
  byo_yomi_periods_remaining ts = 1 ->
  exists ts', loop_body ts ms c = Return ts' /\ timed_out ts' = true.
Proof.
  intros [] Hms Hm Hle Hp.
  destruct ts as [ct tout mt mtr bt btr bs bsr bp bpr]; fields_in_all.
  subst. unfold loop_body; cbn.
  replace (Z.min btr ms) with btr by lia.
  replace (U32.sub btr btr) with 0 by u32.
  destruct c; cbn; eexists; split; reflexivity.
Qed.

Lemma advance_loop_overtime n : forall ts ms c,
  well_formed ts -> U32.in_range ms ->
  timed_out ts = false ->
  main_time_remaining ts = 0 ->
  0 < byo_yomi_time ts ->
  byo_yomi_periods_remaining ts = Z.of_nat (S n) ->
  exists r,
    advance_loop (S n) ts ms c = Some r /\
    (timed_out r = true <->
     0 < ms /\
     byo_yomi_time_remaining ts + Z.of_nat n * byo_yomi_time ts <= ms).
Proof.
  induction n as [|n IH]; intros ts ms c Hwf Hms Ht Hm Hbt Hp;
    rewrite advance_loop_unfold;
    (destruct (Z.ltb_spec 0 ms) as [Hpos|Hle];
     [|exists ts; split; [reflexivity | rewrite Ht; split;
                                         [discriminate | lia]]]);
    (destruct (Z.lt_ge_cases ms (byo_yomi_time_remaining ts)) as [Hlt|Hge];
     [destruct (loop_body_partial ts ms c Hwf Hms Hm (conj Hpos Hlt))
        as (ts' & -> & Ht');
      exists ts'; rewrite advance_loop_done; split;
        [reflexivity | rewrite Ht', Ht; split; [discriminate|]]|]).
  - intros [_ H]. lia.
  - destruct (loop_body_last ts ms c Hwf Hms Hm Hge Hp) as (ts' & -> & Ht').
    exists ts'. split; [reflexivity|]. rewrite Ht'. split; [|reflexivity].
    intros _. cbn. lia.
  - intros [_ H]. assert (0 <= Z.of_nat (S n) * byo_yomi_time ts) by nia.
    lia.
  - rewrite (loop_body_rollover ts ms c Hwf Hms Hm Hge)
      by (rewrite Hp; lia).
    assert (Hr : U32.in_range (byo_yomi_time_remaining ts)
                 /\ U32.in_range (byo_yomi_periods_remaining ts))
      by (destruct Hwf; auto).
    destruct (IH (rolled_over ts) (ms - byo_yomi_time_remaining ts) true)
      as (r & Hr1 & Hr2).
    + now apply rolled_over_well_formed.
    + u32.
    + exact Ht.
    + exact Hm.
    + exact Hbt.
    + cbn. rewrite Hp. destruct Hr as [_ Hr]. rewrite Hp in Hr.
      replace (U32.dec (Z.of_nat (S (S n)))) with (Z.of_nat (S (S n)) - 1)
        by u32.
      lia.
    + exists r. split; [exact Hr1|]. rewrite Hr2. cbn [rolled_over
        byo_yomi_time_remaining byo_yomi_time].
      rewrite !Nat2Z.inj_succ. nia.
Qed.

(** X7.  A clock with a positive period time times out in a call exactly
    when the call asks for at least all the time left: the main time, the
    running period and the periods after it.  One pass more than the
    periods left is enough for the loop. *)
Theorem timeout_threshold ts ms :
  well_formed ts -> U32.in_range ms ->
  can_timeout ts = true -> timed_out ts = false ->
  0 < byo_yomi_time ts -> 0 < byo_yomi_time_remaining ts ->
  1 <= byo_yomi_periods_remaining ts ->
  exists r,
    advance_clock (S (Z.to_nat (byo_yomi_periods_remaining ts))) ts ms
    = Some r /\
    (timed_out r = true <-> time_left ts <= ms).
Proof.
  intros Hwf Hms Hc Ht Hbt Hbtr Hp. unfold advance_clock.
  rewrite Hc, Ht. cbn [negb orb]. unfold time_left.
  set (n := Z.to_nat (byo_yomi_periods_remaining ts - 1)).
  replace (Z.to_nat (byo_yomi_periods_remaining ts)) with (S n)
    by (subst n; lia).
  assert (Hn : byo_yomi_periods_remaining ts = Z.of_nat (S n))
    by (subst n; lia).
  assert (Hn' : byo_yomi_periods_remaining ts - 1 = Z.of_nat n)
    by (subst n; lia).
  rewrite Hn'.
  assert (Hr : U32.in_range (main_time_remaining ts))
    by (destruct Hwf; auto).
  destruct (Z.eq_dec (main_time_remaining ts) 0) as [Hm | Hm].
  - destruct (advance_loop_overtime n ts ms false Hwf Hms Ht Hm Hbt Hn)
      as (r & H1 & H2).
    exists r. split.
    + apply (advance_loop_fuel_mono _ _ _ _ _ H1). lia.
    + rewrite H2, Hm. lia.
  - destruct (Z.le_gt_cases ms (main_time_remaining ts)) as [Hle | Hgt].
    + exists (set_main_time_remaining ts (main_time_remaining ts - ms)).
      split.
      * apply advance_loop_main_time; [exact Hr | u32].
      * cbn. rewrite Ht. split; [discriminate|].
        assert (0 <= Z.of_nat n * byo_yomi_time ts) by nia. lia.
    + set (ts1 := set_main_time_remaining ts 0).
      assert (Hwf1 : well_formed ts1)
        by (destruct Hwf; constructor; cbn; auto; u32).
      destruct (advance_loop_overtime n ts1 (ms - main_time_remaining ts)
                  false Hwf1) as (r & H1 & H2);
        try (cbn; first [assumption | reflexivity | u32]).
      exists r. split.
      * rewrite advance_loop_unfold.
        replace (0 <? ms) with true by (symmetry; apply Z.ltb_lt; u32).
        unfold loop_body.
        replace (main_time_remaining ts =? 0) with false
          by (symmetry; apply Z.eqb_neq; exact Hm).
        replace (Z.min (main_time_remaining ts) ms)
          with (main_time_remaining ts) by lia.
        replace (U32.sub (main_time_remaining ts) (main_time_remaining ts))
          with 0 by u32.
        replace (U32.sub ms (main_time_remaining ts))
          with (ms - main_time_remaining ts) by u32.
        exact H1.
      * rewrite H2. cbn.
        assert (0 <= Z.of_nat n * byo_yomi_time ts) by nia. lia.
Qed.

Lemma timeout_threshold_witness :
  exists r,
    advance_clock
      (S (Z.to_nat
            (byo_yomi_periods_remaining (set_time_system 1000 30000 1 3))))
      (set_time_system 1000 30000 1 3) 91000
    = Some r /\
    (timed_out r = true <->
     time_left (set_time_system 1000 30000 1 3) <= 91000).
Proof.
  apply (timeout_threshold (set_time_system 1000 30000 1 3) 91000).
  - constructor; cbn; unfold U32.in_range, U32.modulus; lia.
  - unfold U32.in_range, U32.modulus; lia.
  - reflexivity.
  - reflexivity.
  - cbn; lia.
  - cbn; lia.
  - cbn; lia.
Defined.


(** *** Sudden death *)

Lemma advance_loop_flag_falls fuel : forall ts ms c r,
  U32.in_range ms -> 0 < ms ->
  main_time_remaining ts = 0 ->
  byo_yomi_time_remaining ts = 0 -> byo_yomi_time ts = 0 ->
  advance_loop fuel ts ms c = Some r -> timed_out r = true.
Proof.
  induction fuel as [|fuel IH]; intros ts ms c r Hms Hpos Hm Hbtr Hbt H;
    simpl in H;
    (replace (0 <? ms) with true in H by (symmetry; apply Z.ltb_lt; lia));
    [discriminate|].
  assert (Hb : match loop_body ts ms c with
               | Return ts' => timed_out ts' = true
               | Continue ts' ms' _ =>
                   ms' = ms /\ main_time_remaining ts' = 0 /\
                   byo_yomi_time_remaining ts' = 0 /\ byo_yomi_time ts' = 0
               end).
  { destruct ts as [ct tout mt mtr bt btr bs bsr bp bpr]; fields_in_all.
    subst. unfold loop_body, replenish; cbn.
    replace (Z.min 0 ms) with 0 by lia.
    replace (U32.sub ms 0) with ms by u32.
    destruct c; cbn; split_eqb; cbn; auto. }
  destruct (loop_body ts ms c) as [ts'|ts' ms' c'].
  - injection H as <-. exact Hb.
  - destruct Hb as (-> & ? & ? & ?). eapply IH; eauto.
Qed.

(** X8.  A sudden-death clock: a call within the main time left takes it
    off, and a call beyond it ends, after the period counter has gone all
    the way round, with everything at zero and [timed_out] set. *)
Theorem sudden_death_outcome ts ms :
  well_formed ts -> U32.in_range ms ->
  can_timeout ts = true -> timed_out ts = false ->
  sudden_steady ts ->
  exists r,
    advances_to ts ms r /\
    r = if ms <=? main_time_remaining ts
        then set_main_time_remaining ts (main_time_remaining ts - ms)
        else flag_fallen ts.
Proof.
  intros Hwf Hms Hc Ht Hs.
  assert (Hr : U32.in_range (main_time_remaining ts))
    by (destruct Hwf; auto).
  destruct (Z.leb_spec ms (main_time_remaining ts)) as [Hle | Hgt].
  - eexists. split; [|reflexivity]. exists 1%nat.
    unfold advance_clock. rewrite Hc, Ht. cbn [negb orb].
    apply advance_loop_main_time; [exact Hr | u32].
  - destruct (advance_clock_returns ts ms Hwf Hms) as [r Ha].
    exists r. split; [exact Ha|].
    pose proof (advances_to_configuration ts ms r Ha)
      as (Hc' & Hm' & _).
    destruct Ha as [fuel H]. unfold advance_clock in H.
    rewrite Hc, Ht in H. cbn [negb orb] in H.
    assert (Hsteady : sudden_steady r).
    { apply (advance_loop_sudden fuel ts ms false r Hwf Hms); [|exact H].
      destruct Hs as (? & ? & ? & ? & ? & ? & ?).
      unfold sudden_loop. repeat split; auto; try lia; discriminate. }
    assert (Hout : timed_out r = true).
    { destruct Hs as (Hbt & _ & _ & Hbtr & _ & _ & _).
      assert (Hpos : (0 <? ms) = true) by (apply Z.ltb_lt; u32).
      destruct (Z.eq_dec (main_time_remaining ts) 0) as [Hz | Hnz];
        [eapply (advance_loop_flag_falls fuel ts ms false); eauto; u32|].
      destruct fuel as [|fuel];
        [cbn [advance_loop] in H; rewrite Hpos in H; discriminate|].
      rewrite advance_loop_unfold, Hpos in H.
      - unfold loop_body in H.
        replace (main_time_remaining ts =? 0) with false in H
          by (symmetry; apply Z.eqb_neq; exact Hnz).
        replace (Z.min (main_time_remaining ts) ms)
          with (main_time_remaining ts) in H by lia.
        replace (U32.sub (main_time_remaining ts) (main_time_remaining ts))
          with 0 in H by u32.
        replace (U32.sub ms (main_time_remaining ts))
          with (ms - main_time_remaining ts) in H by u32.
        eapply advance_loop_flag_falls; [| | | | |exact H];
          cbn; first [assumption | reflexivity | u32]. }
    assert (Hz : main_time_remaining r = 0).
    { eapply advance_loop_timed_out; eauto. }
    destruct Hsteady as (E1 & E2 & E3 & E4 & E5 & E6 & _).
    destruct r as [ct tout mt mtr bt btr bs bsr bp bpr]; fields_in_all.
    unfold flag_fallen. subst. rewrite Hc. reflexivity.
Qed.

Lemma sudden_death_outcome_witness :
  exists r,
    advances_to (set_sudden_death 1000) 2000 r /\
    r = if 2000 <=? main_time_remaining (set_sudden_death 1000)
        then set_main_time_remaining (set_sudden_death 1000)
               (main_time_remaining (set_sudden_death 1000) - 2000)
        else flag_fallen (set_sudden_death 1000).
Proof.
  apply (sudden_death_outcome (set_sudden_death 1000) 2000).
  - constructor; cbn; unfold U32.in_range, U32.modulus; lia.
  - unfold U32.in_range, U32.modulus; lia.
  - reflexivity.
  - reflexivity.
  - unfold sudden_steady; cbn. repeat split; lia.
Defined.


(** X9.  The loop of [advance_clock] ends for every clock and every [u32]
    argument, within [loop_measure] passes. *)
Theorem advance_clock_fuel_bound ts ms :
  well_formed ts -> U32.in_range ms ->
  exists r,
    advance_clock (S (Z.to_nat (loop_measure ts ms))) ts ms = Some r.
Proof.
  intros Hwf Hms. unfold advance_clock.
  destruct (negb (can_timeout ts) || timed_out ts); [eauto|].
  apply advance_loop_terminates; auto.
  pose proof (loop_measure_nonneg ts ms). unfold U32.in_range in Hms. lia.
Qed.

Lemma advance_clock_fuel_bound_witness :
  exists r,
    advance_clock
      (S (Z.to_nat (loop_measure (set_time_system 0 10 5 5) 25)))
      (set_time_system 0 10 5 5) 25 = Some r.
Proof.
  apply (advance_clock_fuel_bound (set_time_system 0 10 5 5) 25).
  - constructor; cbn; unfold U32.in_range, U32.modulus; lia.
  - unfold U32.in_range, U32.modulus; lia.
Defined.

(** The stones a run of the loop leaves: those it found, one less if its
    first pass in overtime took one, or the configured number after a
    refill. *)
Lemma advance_loop_stones fuel : forall ts ms c r,
  advance_loop fuel ts ms c = Some r ->
  byo_yomi_stones_remaining r = byo_yomi_stones_remaining ts \/
  (c = false /\
   byo_yomi_stones_remaining r = U32.dec (byo_yomi_stones_remaining ts)) \/
  byo_yomi_stones_remaining r = byo_yomi_stones ts.
Proof.
  induction fuel as [|fuel IH]; intros ts ms c r H.
  - simpl in H. destruct (0 <? ms); [discriminate|].
    injection H as <-. now left.
  - rewrite advance_loop_unfold in H.
    destruct (0 <? ms); [|injection H as <-; now left].
    destruct (Z.eq_dec (main_time_remaining ts) 0) as [Hm | Hm].
    + pose proof (loop_body_stones ts ms c Hm) as Hb.
      pose proof (loop_body_configuration ts ms c) as Hcfg.
      destruct (loop_body ts ms c) as [ts'|ts' ms' c'].
      * injection H as <-. cbv zeta in Hb. destruct c; auto.
      * destruct Hb as [-> Hb]. cbv zeta in Hb.
        destruct Hcfg as (_ & _ & _ & Hs & _).
        apply IH in H. rewrite Hs in H.
        destruct H as [H | [[H _] | H]]; [|discriminate|auto].
        rewrite H. destruct c; destruct Hb; auto.
    + destruct (loop_body_main_stones ts ms c Hm) as (ts' & ms' & E & Hs).
      pose proof (loop_body_configuration ts ms c) as Hcfg.
      rewrite E in H, Hcfg. destruct Hcfg as (_ & _ & _ & Hs' & _).
      apply IH in H. rewrite Hs, Hs' in H. exact H.
Qed.

(** X10.  Whatever the clock and the elapsed time, a call returns and has
    taken at most one stone: it leaves [byo_yomi_stones_remaining] as it
    was, one less, or refilled to [byo_yomi_stones], however many periods it
    spans. *)
Theorem call_charges_at_most_one_stone ts ms :
  well_formed ts -> U32.in_range ms ->
  exists r,
    advance_clock (S (Z.to_nat (loop_measure ts ms))) ts ms = Some r /\
    (byo_yomi_stones_remaining r = byo_yomi_stones_remaining ts \/
     byo_yomi_stones_remaining r = U32.dec (byo_yomi_stones_remaining ts) \/
     byo_yomi_stones_remaining r = byo_yomi_stones ts).
Proof.
  intros Hwf Hms. unfold advance_clock.
  destruct (negb (can_timeout ts) || timed_out ts).
  - exists ts. split; [reflexivity | now left].
  - destruct (advance_loop_terminates (S (Z.to_nat (loop_measure ts ms)))
                ts ms false Hwf Hms) as [r E].
    { pose proof (loop_measure_nonneg ts ms).
      unfold U32.in_range in Hms. lia. }
    exists r. split; [exact E|].
    apply advance_loop_stones in E. tauto.
Qed.

Lemma call_charges_at_most_one_stone_witness :
  let ts := mk_time_system true false 0 0 10 4 5 3 9 9 in
  exists r,
    advance_clock (S (Z.to_nat (loop_measure ts 45))) ts 45 = Some r /\
    (byo_yomi_stones_remaining r = byo_yomi_stones_remaining ts \/
     byo_yomi_stones_remaining r = U32.dec (byo_yomi_stones_remaining ts) \/
     byo_yomi_stones_remaining r = byo_yomi_stones ts).
Proof.
  apply (call_charges_at_most_one_stone
           (mk_time_system true false 0 0 10 4 5 3 9 9) 45).
  - constructor; cbn; unfold U32.in_range, U32.modulus; lia.
  - unfold U32.in_range, U32.modulus; lia.
Defined.


(** ** More on textual time systems *)

(** X11.  What [time_system_to_str] writes has at most 47 characters, so
    the 64 bytes given to [snprintf] never cut it. *)
Theorem time_system_to_str_fits ts :
  well_formed ts ->
  (String.length (time_system_to_str ts) <= 47)%nat /\
  time_system_to_str ts = time_system_text ts.
Proof.
  intros Hwf. rewrite (time_system_to_str_text ts Hwf).
  split; [now apply time_system_text_length | reflexivity].
Qed.

Lemma time_system_to_str_fits_witness :
  (String.length (time_system_to_str (set_time_system 300000 30000 1 5))
   <= 47)%nat /\
  time_system_to_str (set_time_system 300000 30000 1 5)
  = time_system_text (set_time_system 300000 30000 1 5).
Proof.
  apply (time_system_to_str_fits (set_time_system 300000 30000 1 5)).
  constructor; cbn; unfold U32.in_range, U32.modulus; lia.
Defined.


(** X12.  [time_system_to_str] writes a time in the largest of hours,
    minutes, seconds and milliseconds that divides it, and zero without a
    unit. *)
Theorem largest_unit_exact t :
  0 <= t -> largest_unit t = exact_unit t.
Proof.
  intros Ht. unfold largest_unit, exact_unit.
  destruct (Z.eqb_spec t 0) as [->|Hnz]; [reflexivity|].
  destruct (Z.leb_spec 1000 t); cbn [andb];
    destruct (Z.eqb_spec (t mod 1000) 0); cbn [andb].
  - assert (E1 : t / 1000 / 60 = t / 60000)
      by (rewrite Z.div_div by lia; reflexivity).
    assert (E2 : t / 1000 / 60 / 60 = t / 3600000)
      by (rewrite !Z.div_div by lia; reflexivity).
    destruct (Z.leb_spec 60 (t / 1000)); cbn [andb];
      [destruct (Z.eqb_spec ((t / 1000) mod 60) 0)|]; cbn [andb].
    + destruct (Z.leb_spec 60 (t / 1000 / 60)); cbn [andb];
        [destruct (Z.eqb_spec ((t / 1000 / 60) mod 60) 0)|]; cbn [andb];
        destruct (Z.eqb_spec (t mod 3600000) 0);
        destruct (Z.eqb_spec (t mod 60000) 0);
        try (rewrite ?E2, ?E1; reflexivity);
        exfalso; Z.div_mod_to_equations; lia.
    + destruct (Z.leb_spec 60 (t / 1000)); cbn [andb];
        [destruct (Z.eqb_spec ((t / 1000) mod 60) 0)|]; cbn [andb];
        destruct (Z.eqb_spec (t mod 3600000) 0);
        destruct (Z.eqb_spec (t mod 60000) 0);
        try reflexivity; exfalso; Z.div_mod_to_equations; lia.
    + destruct (Z.leb_spec 60 (t / 1000)); cbn [andb]; [lia|].
      destruct (Z.eqb_spec (t mod 3600000) 0);
        destruct (Z.eqb_spec (t mod 60000) 0);
        try reflexivity; exfalso; Z.div_mod_to_equations; lia.
  - destruct (Z.eqb_spec (t mod 3600000) 0);
      destruct (Z.eqb_spec (t mod 60000) 0);
      try reflexivity; exfalso; Z.div_mod_to_equations; lia.
  - exfalso; Z.div_mod_to_equations; lia.
  - destruct (Z.eqb_spec (t mod 3600000) 0);
      destruct (Z.eqb_spec (t mod 60000) 0);
      try reflexivity; exfalso; Z.div_mod_to_equations; lia.
Qed.

Lemma largest_unit_exact_witness :
  largest_unit 7200000 = exact_unit 7200000.
Proof. apply (largest_unit_exact 7200000). lia. Defined.


Section ParseRange.

Variable trim : string -> string.
Variable str_to_milliseconds : string -> Z.
Variable parse_int : string -> option Z.

(** X13.  Whatever the helpers do, the main time, the byo-yomi time, the
    periods and the stones [str_to_time_system] stores fit a signed 32-bit
    integer, though the fields are unsigned. *)
Theorem parsed_values_fit_s32 malloc_ok src dst :
  fst (str_to_time_system trim str_to_milliseconds parse_int malloc_ok src
         dst) = true ->
  let r := snd (str_to_time_system trim str_to_milliseconds parse_int
                  malloc_ok src dst) in
  0 <= main_time r <= S32.max /\
  0 <= byo_yomi_time r <= S32.max /\
  0 <= byo_yomi_periods r <= S32.max /\
  1 <= byo_yomi_stones r <= S32.max.
Proof.
  destruct (str_to_time_system_outcome trim str_to_milliseconds parse_int
              malloc_ok src dst)
    as [H | (m & s & t & p & H & Hm & Hs & Ht & Hp)]; rewrite H;
    [discriminate|].
  intros _. cbn. lia.
Qed.


End ParseRange.

Lemma parsed_values_fit_s32_witness :
  let r := snd (str_to_time_system Stringm.trim Stringm.str_to_milliseconds
                  Stringm.parse_int true (Some "300s+5x30s/1"%string)
                  (set_sudden_death 7)) in
  0 <= main_time r <= S32.max /\
  0 <= byo_yomi_time r <= S32.max /\
  0 <= byo_yomi_periods r <= S32.max /\
  1 <= byo_yomi_stones r <= S32.max.
Proof.
  apply (parsed_values_fit_s32 Stringm.trim Stringm.str_to_milliseconds
           Stringm.parse_int true (Some "300s+5x30s/1"%string)
           (set_sudden_death 7)).
  reflexivity.
Defined.


(** ** More on the engine glue *)

Section EngineMore.

Variables board out_board transpositions : Type.
Variable reduce_auto : board -> bool -> board * Z.
Variable opening_book : board -> option out_board.
Variable oboard_revert_reduce : out_board -> Z -> out_board.
Variable mcts_start :
  transpositions -> board -> bool -> Z -> Z -> transpositions * out_board * Q.
Variable UCT_MIN_WINRATE : Q.

Let engine := Engine.engine transpositions.
Let evaluate_position :=
  Engine.evaluate_position board out_board transpositions reduce_auto
    opening_book oboard_revert_reduce mcts_start UCT_MIN_WINRATE.
Let book_hit :=
  Engine.book_hit board out_board transpositions reduce_auto opening_book.


End EngineMore.

(** ** The data folder *)

Lemma get_last_appended s c :
  String.get (String.length (s ++ String c "") - 1) (s ++ String c "")
  = Some c.
Proof.
  induction s as [|a s IH]; [reflexivity|].
  cbn [append String.length]. rewrite Nat.sub_1_r. cbn [Nat.pred].
  rewrite Nat.sub_1_r in IH.
  destruct (String.length (s ++ String c "")) eqn:E.
  - destruct s; discriminate.
  - cbn [String.get]. cbn [Nat.pred] in IH. exact IH.
Qed.

Lemma string_length_appended s c :
  String.length (s ++ String c "") = S (String.length s).
Proof. induction s; cbn; congruence. Qed.

Lemma u32_wrap_small x : U32.in_range x -> U32.wrap x = x.
Proof. intros H. u32. Qed.

Section DataFolderFacts.

Variable MAX_PATH_SIZ : Z.
Hypothesis path_size : 1 <= MAX_PATH_SIZ <= U32.modulus.

(** X17.  [set_data_folder] refuses a path shorter than 2 or longer than
    [MAX_PATH_SIZ - 2] characters and then changes nothing; otherwise the
    folder becomes the path, with a separator appended unless it ends with
    one, uncut by [snprintf]. *)
Theorem set_data_folder_outcome folder s :
  Z.of_nat (String.length s) < U32.modulus ->
  let len := Z.of_nat (String.length s) in
  let r := DataFolder.set_data_folder MAX_PATH_SIZ folder s in
  if (len <? 2) || (MAX_PATH_SIZ - 1 <=? len) then r = (false, folder)
  else
    fst r = true /\
    snd r = (if DataFolder.ends_with_separator s then s
             else (s ++ "/")%string) /\
    DataFolder.ends_with_separator (snd r) = true /\
    Z.of_nat (String.length (snd r)) < MAX_PATH_SIZ.
Proof.
  intros Hs len r. subst r. unfold DataFolder.set_data_folder.
  rewrite (u32_wrap_small (MAX_PATH_SIZ - 1)) by u32.
  rewrite (u32_wrap_small (Z.of_nat (String.length s))) by u32.
  fold len.
  destruct ((len <? 2) || (MAX_PATH_SIZ - 1 <=? len)) eqn:E;
    [reflexivity|].
  apply orb_false_iff in E as [E1 E2].
  apply Z.ltb_ge in E1. apply Z.leb_gt in E2.
  unfold DataFolder.snprintf_path.
  destruct (DataFolder.ends_with_separator s) eqn:Hsep; cbn [fst snd].
  - rewrite substring_whole by (subst len; lia).
    repeat split; [exact Hsep | subst len; lia].
  - rewrite substring_whole
      by (rewrite string_length_appended; subst len; lia).
    repeat split.
    + unfold DataFolder.ends_with_separator.
      now rewrite get_last_appended.
    + rewrite string_length_appended. subst len. lia.
Qed.

End DataFolderFacts.

Lemma set_data_folder_outcome_witness :
  let len := Z.of_nat (String.length "games") in
  let r := DataFolder.set_data_folder 1024 "data/" "games" in
  if (len <? 2) || (1024 - 1 <=? len) then r = (false, "data/"%string)
  else
    fst r = true /\
    snd r = (if DataFolder.ends_with_separator "games" then "games"%string
             else ("games" ++ "/")%string) /\
    DataFolder.ends_with_separator (snd r) = true /\
    Z.of_nat (String.length (snd r)) < 1024.
Proof.
  apply (set_data_folder_outcome 1024).
  - unfold U32.modulus; lia.
  - cbn; unfold U32.modulus; lia.
Defined.


(** ** The command line of [ob_learn/main.c] *)

Section ArgumentsFacts.

Variable parse_int : string -> option Z.
Variable BOARD_SIZ : Z.

Let arguments := ObLearn.arguments parse_int.
Let default_depth := ObLearn.ob_depth (ObLearn.defaults BOARD_SIZ).

Lemma s32_wrap_range x : S32.min <= S32.wrap x <= S32.max.
Proof.
  unfold S32.wrap, S32.min, S32.max, U32.modulus.
  Z.div_mod_to_equations. lia.
Qed.

Lemma arguments_sound n : forall argv s s',
  (List.length argv <= n)%nat ->
  sound_settings default_depth s ->
  arguments argv s = ObLearn.proceed s' ->
  sound_settings default_depth s'.
Proof.
  induction n as [|n IH]; intros argv s s' Hn Hs H.
  - destruct argv; [|cbn in Hn; lia]. cbn in H. congruence.
  - destruct argv as [|a rest]; [cbn in H; congruence|].
    cbn in Hn. cbn [arguments ObLearn.arguments] in H.
    fold (ObLearn.arguments parse_int) in H. fold arguments in H.
    destruct (String.eqb a "-version"); [discriminate|].
    assert (Hother :
      (if String.eqb a "-relax_komi" then
         arguments rest
           (ObLearn.mk_settings true (ObLearn.ob_depth s)
              (ObLearn.minimum_samples s))
       else ObLearn.usage_printed (ObLearn.ob_depth s)
              (ObLearn.minimum_samples s)) = ObLearn.proceed s' ->
      sound_settings default_depth s').
    { destruct (String.eqb a "-relax_komi"); [|discriminate].
      intros H'. refine (IH rest _ s' _ _ H'); [lia|].
      destruct Hs as (? & ? & ?). repeat split; cbn; tauto. }
    destruct rest as [|v rest']; [exact (Hother H)|].
    cbn in Hn.
    destruct (String.eqb a "-max_depth").
    + destruct (parse_int v) as [x|]; cbn [option_map] in H;
        [|discriminate].
      destruct (Z.ltb_spec (S32.wrap x) 1); [discriminate|].
      refine (IH rest' _ s' _ _ H); [lia|].
      pose proof (s32_wrap_range x).
      destruct Hs as (? & ? & ?).
      repeat split; cbn; try tauto; try (right; lia).
    + destruct (String.eqb a "-min_samples"); [|exact (Hother H)].
      destruct (parse_int v) as [x|]; cbn [option_map] in H;
        [|discriminate].
      destruct (Z.ltb_spec (S32.wrap x) 1); [discriminate|].
      refine (IH rest' _ s' _ _ H); [lia|].
      pose proof (s32_wrap_range x).
      destruct Hs as (? & ? & ?). repeat split; cbn; try tauto; lia.
Qed.

(** X18.  When the options of [ob_learn] are accepted, [relax_komi] is set
    (no option clears it), [minimum_samples] is at least 1, and [ob_depth]
    is the default or a value of at least 1. *)
Theorem main_arguments_sound argv s :
  ObLearn.main_arguments parse_int BOARD_SIZ argv = ObLearn.proceed s ->
  sound_settings default_depth s.
Proof.
  intros H. apply (arguments_sound (List.length argv) argv
                     (ObLearn.defaults BOARD_SIZ) s (le_n _)); [|exact H].
  unfold sound_settings, S32.max. cbn.
  split; [reflexivity|]. split; [lia|]. now left.
Qed.

End ArgumentsFacts.

Section UsageText.

Variable parse_int : string -> option Z.

Let arguments := ObLearn.arguments parse_int.

(** X19.  The usage text [ob_learn] prints for an unknown argument gives as
    the default of [-max_depth] the value an earlier [-max_depth] has
    set. *)
Theorem usage_shows_changed_depth v x a rest s :
  parse_int v = Some x -> 1 <= S32.wrap x ->
  a <> "-version"%string -> a <> "-max_depth"%string ->
  a <> "-min_samples"%string -> a <> "-relax_komi"%string ->
  arguments ("-max_depth"%string :: v :: a :: rest) s
  = ObLearn.usage_printed (S32.wrap x) (ObLearn.minimum_samples s).
Proof.
  intros Hv Hx H1 H2 H3 H4.
  apply String.eqb_neq in H1, H2, H3, H4.
  cbn [arguments ObLearn.arguments String.eqb Ascii.eqb Bool.eqb].
  rewrite Hv. cbn [option_map].
  replace (S32.wrap x <? 1) with false by (symmetry; apply Z.ltb_ge; lia).
  rewrite H1. destruct rest; rewrite ?H2, ?H3, H4; reflexivity.
Qed.

End UsageText.

Lemma main_arguments_sound_witness :
  sound_settings (ObLearn.ob_depth (ObLearn.defaults 19))
    (ObLearn.mk_settings true 10 32).
Proof.
  apply (main_arguments_sound Stringm.parse_int 19
           ["-max_depth"; "10"; "-relax_komi"]%string
           (ObLearn.mk_settings true 10 32)).
  reflexivity.
Defined.

Lemma usage_shows_changed_depth_witness :
  ObLearn.arguments Stringm.parse_int
    ["-max_depth"; "10"; "-depth"; "3"]%string (ObLearn.defaults 19)
  = ObLearn.usage_printed (S32.wrap 10)
      (ObLearn.minimum_samples (ObLearn.defaults 19)).
Proof.
  apply (usage_shows_changed_depth Stringm.parse_int "10" 10 "-depth"
           ["3"%string] (ObLearn.defaults 19)).
  - reflexivity.
  - vm_compute. discriminate.
  - discriminate.
  - discriminate.
  - discriminate.
  - discriminate.
Defined.

